(** * tinyusdz USD ASCII parser ([src/ascii-parser.hh]): a shallow embedding

    The development follows the header of [tinyusdz::ascii::AsciiParser].
    Member functions that the header defines inline (the diagnostic stacks,
    the load-state queries, the path stack, [VariableDef]) are translated
    from their bodies.  Member functions that the header only declares
    (the lexer primitives, the checkpoint stack, the typed-value decoder)
    have their bodies in a translation unit that is not part of [src/];
    they are modelled from the specification and marked as such. *)

From Stdlib Require Import ZArith NArith String Ascii Bool List Lia.
Import ListNotations.

Local Open Scope Z_scope.

(** ** Containers of the standard library used by the header *)

(** [std::stack<T>]: the head of the list is the top of the stack.
    [pop] on an empty stack is undefined in C++; every caller in the header
    guards it with [empty]. *)
Module StdStack.
Section Ops.
Context {A : Type}.

Definition push (x : A) (s : list A) : list A := x :: s.

Definition pop (s : list A) : list A := tl s.

Definition top (s : list A) : option A := hd_error s.

Definition empty (s : list A) : bool :=
  match s with
  | [] => true
  | _ :: _ => false
  end.

(** [size()] is a [size_t]; a stack held in memory has fewer than
    [2^64] entries, so the count is kept exact. *)
Definition size (s : list A) : N := N.of_nat (List.length s).
End Ops.
End StdStack.

(** Conversion of an integer to [bool] (C++ [conv.bool]): zero is [false],
    anything else is [true]. *)
Definition bool_of_size_t (n : N) : bool := negb (N.eqb n 0).

(** [nonstd::expected<T, E>]: either a value or an error. *)
Inductive expected (T E : Type) : Type :=
| Value : T -> expected T E
| Unexpected : E -> expected T E.
Arguments Value {T E} _.
Arguments Unexpected {T E} _.

(** [std::function<F>]: a callable target, or empty. *)
Definition std_function (F : Type) : Type := option F.

(** The outcome of calling a [std::function]: the target's result, or the
    exception [std::bad_function_call] that [operator()] throws when there
    is no target. *)
Inductive invoked (R : Type) : Type :=
| Returned : R -> invoked R
| bad_function_call : invoked R.
Arguments Returned {R} _.
Arguments bad_function_call {R}.

(** [std::function<R(A)>::operator()]. *)
Definition std_function_call {A R : Type} (f : std_function (A -> R)) (a : A)
  : invoked R :=
  match f with
  | Some target => Returned (target a)
  | None => bad_function_call
  end.

(** ** Data of the parser *)

(** Modelled from the spec: the [StreamReader] class ([stream-reader.hh]) is
    missing; section 6 describes this external collaborator as exposing
    byte-level peek/read/seek/eof/current-offset over the input bytes. The
    stream is the sequence of input characters together with the current
    absolute offset. *)
Record StreamReader : Type := mkStreamReader {
  binary : list ascii;
  idx : N
}.

(** Modelled from the spec: the member functions of [StreamReader] named in
    section 6 (size, current offset, end of stream, peek, read, seek). *)
Module Stream.
Definition size (sr : StreamReader) : N := N.of_nat (List.length (binary sr)).

Definition tell (sr : StreamReader) : N := idx sr.

Definition eof (sr : StreamReader) : bool := (size sr <=? idx sr)%N.

Definition peek1 (sr : StreamReader) : option ascii :=
  nth_error (binary sr) (N.to_nat (idx sr)).

Definition skip1 (sr : StreamReader) : StreamReader :=
  mkStreamReader (binary sr) (idx sr + 1).

Definition seek_set (pos : N) (sr : StreamReader) : option StreamReader :=
  if (pos <=? size sr)%N then Some (mkStreamReader (binary sr) pos)
  else None.

(** The characters from the current offset to the end of the stream. *)
Definition rest (sr : StreamReader) : list ascii :=
  skipn (N.to_nat (idx sr)) (binary sr).
End Stream.

(** [struct ParseState { int64_t loc{-1}; }] *)
Record ParseState : Type := mkParseState {
  loc : Z
}.

Definition ParseState_default : ParseState := mkParseState (-1).

(** [struct Cursor { int row{0}; int col{0}; }] *)
Record Cursor : Type := mkCursor {
  row : Z;
  col : Z
}.

(** [struct ErrorDiagnositc { std::string err; Cursor cursor; }] *)
Record ErrorDiagnositc : Type := mkErrorDiagnositc {
  err : string;
  cursor : Cursor
}.

(** The data members of [AsciiParser] that the modelled member functions
    read or write.  The registries of supported names, the stage metadata
    and the callback members are touched by none of them and are left
    out. *)
Record AsciiParser : Type := mkAsciiParser {
  _sr : StreamReader;
  _path_stack : list string;
  _curr_cursor : Cursor;
  err_stack : list ErrorDiagnositc;
  warn_stack : list ErrorDiagnositc;
  parse_stack : list ParseState;
  _sub_layered : bool;
  _referenced : bool;
  _payloaded : bool;
  _base_dir : string
}.

Definition set_sr (sr : StreamReader) (p : AsciiParser) : AsciiParser :=
  mkAsciiParser sr (_path_stack p) (_curr_cursor p) (err_stack p)
    (warn_stack p) (parse_stack p) (_sub_layered p) (_referenced p)
    (_payloaded p) (_base_dir p).

Definition set_path_stack (s : list string) (p : AsciiParser) : AsciiParser :=
  mkAsciiParser (_sr p) s (_curr_cursor p) (err_stack p)
    (warn_stack p) (parse_stack p) (_sub_layered p) (_referenced p)
    (_payloaded p) (_base_dir p).

Definition set_curr_cursor (c : Cursor) (p : AsciiParser) : AsciiParser :=
  mkAsciiParser (_sr p) (_path_stack p) c (err_stack p)
    (warn_stack p) (parse_stack p) (_sub_layered p) (_referenced p)
    (_payloaded p) (_base_dir p).

Definition set_err_stack (s : list ErrorDiagnositc) (p : AsciiParser)
  : AsciiParser :=
  mkAsciiParser (_sr p) (_path_stack p) (_curr_cursor p) s
    (warn_stack p) (parse_stack p) (_sub_layered p) (_referenced p)
    (_payloaded p) (_base_dir p).

Definition set_warn_stack (s : list ErrorDiagnositc) (p : AsciiParser)
  : AsciiParser :=
  mkAsciiParser (_sr p) (_path_stack p) (_curr_cursor p) (err_stack p)
    s (parse_stack p) (_sub_layered p) (_referenced p)
    (_payloaded p) (_base_dir p).

Definition set_parse_stack (s : list ParseState) (p : AsciiParser)
  : AsciiParser :=
  mkAsciiParser (_sr p) (_path_stack p) (_curr_cursor p) (err_stack p)
    (warn_stack p) s (_sub_layered p) (_referenced p)
    (_payloaded p) (_base_dir p).

(** ** Member functions defined in the header *)

(** [PushError] (lines 133-139): a diagnostic is built from the current
    cursor and the message and pushed on [err_stack]. *)
Definition PushError (msg : string) (p : AsciiParser) : AsciiParser :=
  let diag :=
    mkErrorDiagnositc msg
      (mkCursor (row (_curr_cursor p)) (col (_curr_cursor p))) in
  set_err_stack (StdStack.push diag (err_stack p)) p.

(** [PopError] (lines 142-146). *)
Definition PopError (p : AsciiParser) : AsciiParser :=
  if negb (StdStack.empty (err_stack p))
  then set_err_stack (StdStack.pop (err_stack p)) p
  else p.

(** [PushWarn] (lines 148-154). *)
Definition PushWarn (msg : string) (p : AsciiParser) : AsciiParser :=
  let diag :=
    mkErrorDiagnositc msg
      (mkCursor (row (_curr_cursor p)) (col (_curr_cursor p))) in
  set_warn_stack (StdStack.push diag (warn_stack p)) p.

(** [PopWarn] (lines 157-161). *)
Definition PopWarn (p : AsciiParser) : AsciiParser :=
  if negb (StdStack.empty (warn_stack p))
  then set_warn_stack (StdStack.pop (warn_stack p)) p
  else p.

(** Load-state queries (lines 602-613). *)
Definition IsReferenced (p : AsciiParser) : bool := _referenced p.

Definition IsSubLayered (p : AsciiParser) : bool := _sub_layered p.

Definition IsPayloaded (p : AsciiParser) : bool := _payloaded p.

Definition IsToplevel (p : AsciiParser) : bool :=
  negb (IsReferenced p) && negb (IsSubLayered p) && negb (IsPayloaded p).

(** [Eof] (line 669). *)
Definition Eof (p : AsciiParser) : bool := Stream.eof (_sr p).

(** Path stack (lines 769-775).  [PathStackDepth] is declared [bool] and
    returns [_path_stack.size()], so the count goes through the
    integer-to-bool conversion. *)
Definition PathStackDepth (p : AsciiParser) : bool :=
  bool_of_size_t (StdStack.size (_path_stack p)).

Definition PushPath (s : string) (p : AsciiParser) : AsciiParser :=
  set_path_stack (StdStack.push s (_path_stack p)) p.

Definition PopPath (p : AsciiParser) : AsciiParser :=
  if negb (StdStack.empty (_path_stack p))
  then set_path_stack (StdStack.pop (_path_stack p)) p
  else p.

(** [class VariableDef] (lines 166-201). *)
Module VariableDef.
(** [using PostParseHandler = std::function<nonstd::expected<bool,
    std::string>(const std::string &)>] (lines 171-172). *)
Definition PostParseHandler : Type :=
  std_function (string -> expected bool string).

(** The static member function of lines 174-177. *)
Definition DefaultPostParseHandler : string -> expected bool string :=
  fun _ => Value true.

Record t : Type := mk {
  type : string;
  name : string;
  allow_array_type : bool;
  post_parse_handler : PostParseHandler
}.

(** [VariableDef() = default] (line 185): empty strings, the member
    initialiser [allow_array_type{false}], and a [std::function] without a
    target. *)
Definition default_constructed : t :=
  mk EmptyString EmptyString false None.

(** The constructor of lines 187-189; its last two parameters have the
    default arguments [false] and [DefaultPostParseHandler], an absent
    argument is [None].  A handler that is passed is stored as it is. *)
Definition make (ty n : string) (a : option bool)
    (ph : option PostParseHandler) : t :=
  mk ty n
     (match a with Some b => b | None => false end)
     (match ph with
      | Some h => h
      | None => Some DefaultPostParseHandler
      end).

(** Validating a decoded value with an entry: the call
    [post_parse_handler(value)] of the member. *)
Definition call_post_parse_handler (def : t) (value : string)
  : invoked (expected bool string) :=
  std_function_call (post_parse_handler def) value.
End VariableDef.

(** [N] calls of [PushError], one per message, in order. *)
Definition PushErrors (msgs : list string) (p : AsciiParser) : AsciiParser :=
  fold_left (fun q m => PushError m q) msgs p.

(** [n] calls of [PopError]. *)
Definition PopErrors (n : nat) (p : AsciiParser) : AsciiParser :=
  Nat.iter n PopError p.

Section ErrorReport.
(** Modelled from the spec: [GetError] is declared at line 594 and its body
    is missing. Section 4.1 says that it renders the accumulated stack into
    a single report string; the rendering of the stack is a parameter. *)
Variable render_report : list ErrorDiagnositc -> string.

Definition GetError (p : AsciiParser) : string :=
  render_report (err_stack p).

Definition GetWarning (p : AsciiParser) : string :=
  render_report (warn_stack p).
End ErrorReport.

(** ** The parser monad

    A member function returning [bool] and writing its result through an
    out-parameter is a state transformer on the parser whose result is
    [Some v] for [true] and [None] for [false].  The state is threaded
    through failures as well: a failed parse keeps whatever it consumed and
    whatever diagnostics it pushed. *)
Definition M (A : Type) : Type := AsciiParser -> option A * AsciiParser.

Definition ret {A : Type} (a : A) : M A := fun p => (Some a, p).

Definition fail {A : Type} : M A := fun p => (None, p).

Definition bind {A B : Type} (m : M A) (f : A -> M B) : M B :=
  fun p =>
    match m p with
    | (Some a, p') => f a p'
    | (None, p') => (None, p')
    end.

Declare Scope parser_scope.
Delimit Scope parser_scope with parser.
Notation "x <- m ;; k" := (bind m (fun x => k))
  (at level 61, m at next level, right associativity) : parser_scope.
Notation "m ;; k" := (bind m (fun _ => k))
  (at level 61, right associativity) : parser_scope.
Local Open Scope parser_scope.

(** [static_cast<int64_t>] and [static_cast<uint64_t>]. *)
Definition to_int64 (z : Z) : Z := (z + 2 ^ 63) mod 2 ^ 64 - 2 ^ 63.

Definition to_uint64 (z : Z) : N := Z.to_N (z mod 2 ^ 64).

(** The overloads [bool ReadBasicType(T *value)] (lines 391-448): one bare
    decoder per element type. *)
Class BasicType (T : Type) : Type := {
  ReadBasicType : M T
}.

Definition is_whitespace (c : ascii) : bool :=
  Ascii.eqb c " " || Ascii.eqb c "009".

Definition is_digit (c : ascii) : bool :=
  (48 <=? N_of_ascii c)%N && (N_of_ascii c <=? 57)%N.

Definition digit_value (c : ascii) : Z := Z.of_N (N_of_ascii c) - 48.

Fixpoint leading_digits (cs : list ascii) : list ascii :=
  match cs with
  | c :: cs' => if is_digit c then c :: leading_digits cs' else []
  | [] => []
  end.

Definition decimal_value (ds : list ascii) : Z :=
  fold_left (fun acc d => 10 * acc + digit_value d) ds 0.

Section Lexer.
(** Modelled from the spec: section 3 says that the cursor is updated by the
    lexer on every consumed character; the rule that moves the cursor is not
    given, so it is a parameter. *)
Variable advance_cursor : ascii -> Cursor -> Cursor.

(** The unread characters. *)
Definition rest (p : AsciiParser) : list ascii := Stream.rest (_sr p).

(** Modelled from the spec: [CurrLoc] (line 685) is declared without a body;
    the current absolute offset of the stream (section 6). *)
Definition CurrLoc (p : AsciiParser) : N := Stream.tell (_sr p).

(** One character [c] has been read: the stream moves on by one and the
    cursor is updated. *)
Definition consume1 (c : ascii) (p : AsciiParser) : AsciiParser :=
  set_curr_cursor (advance_cursor c (_curr_cursor p))
    (set_sr (Stream.skip1 (_sr p)) p).

Definition consume (cs : list ascii) (p : AsciiParser) : AsciiParser :=
  fold_left (fun q c => consume1 c q) cs p.

(** Modelled from the spec: [LookChar1] (line 678) is declared without a
    body; section 4.3, peek one character without consuming. *)
Definition LookChar1 : M ascii :=
  fun p =>
    match Stream.peek1 (_sr p) with
    | Some c => (Some c, p)
    | None => (None, p)
    end.

(** Modelled from the spec: [Char1] (line 681) is declared without a body;
    section 4.3, consume one character. *)
Definition Char1 : M ascii :=
  fun p =>
    match Stream.peek1 (_sr p) with
    | Some c => (Some c, consume1 c p)
    | None => (None, p)
    end.

(** Modelled from the spec: [CharN] (line 682) is declared without a body;
    section 4.3, consume [n] characters; a failure leaves the stream at the
    failure point. *)
Fixpoint CharN (n : nat) : M (list ascii) :=
  match n with
  | O => ret []
  | S n' => c <- Char1 ;; cs <- CharN n' ;; ret (c :: cs)
  end.

(** Modelled from the spec: [LookCharN] (line 679) is declared without a
    body; section 4.3, peek [n] characters without consuming. *)
Definition LookCharN (n : nat) : M (list ascii) :=
  fun p =>
    let cs := firstn n (rest p) in
    if Nat.eqb (List.length cs) n then (Some cs, p) else (None, p).

(** Modelled from the spec: [SeekTo] (line 686) is declared without a body;
    move to the absolute offset [pos] (the comment on the declaration, and
    section 6). *)
Definition SeekTo (pos : N) : M unit :=
  fun p =>
    match Stream.seek_set pos (_sr p) with
    | Some sr => (Some tt, set_sr sr p)
    | None => (None, p)
    end.

(** Modelled from the spec: [Rewind] (line 684) is declared without a body;
    move back by [offset] characters. *)
Definition Rewind (offset : N) : M unit :=
  fun p =>
    if (offset <=? CurrLoc p)%N then SeekTo (CurrLoc p - offset) p
    else (None, p).

(** Modelled from the spec: [PushParserState] (line 688) is declared without
    a body; sections 3 and 4.2, a checkpoint is the absolute offset of the
    stream at snapshot time, kept on a stack. [ParseState] holds the offset
    as [int64_t]. *)
Definition PushParserState : M unit :=
  fun p =>
    let state := mkParseState (to_int64 (Z.of_N (CurrLoc p))) in
    (Some tt, set_parse_stack (StdStack.push state (parse_stack p)) p).

(** Modelled from the spec: [PopParserState] (line 689) is declared without
    a body; the most recent checkpoint is taken off the stack and handed to
    the caller. *)
Definition PopParserState : M ParseState :=
  fun p =>
    match StdStack.top (parse_stack p) with
    | Some state =>
        (Some state, set_parse_stack (StdStack.pop (parse_stack p)) p)
    | None => (None, p)
    end.

(** Modelled from the spec: restoring a checkpoint (section 4.2) is what the
    callers do with the two declared functions, [PopParserState] followed by
    [SeekTo] the saved offset. *)
Definition RestoreParserState : M unit :=
  state <- PopParserState ;; SeekTo (to_uint64 (loc state)).

(** Modelled from the spec: the loop of [SkipWhitespace] over the unread
    characters [cs]. *)
Fixpoint skip_whitespace (cs : list ascii) (p : AsciiParser) : AsciiParser :=
  match cs with
  | c :: cs' =>
      if is_whitespace c then skip_whitespace cs' (consume1 c p) else p
  | [] => p
  end.

(** Modelled from the spec: [SkipWhitespace] (line 637) is declared without
    a body; section 4.3, skip whitespace. Blanks and tabs are consumed up to
    the first other character. *)
Definition SkipWhitespace : M unit :=
  fun p => (Some tt, skip_whitespace (rest p) p).

(** Whether the next unread character is [c]. *)
Definition NextIs (c : ascii) (p : AsciiParser) : bool :=
  match Stream.peek1 (_sr p) with
  | Some c' => Ascii.eqb c' c
  | None => false
  end.

(** Modelled from the spec: [Expect] (line 623) is declared without a body;
    sections 4.3 and 7, the given character is required after optional
    whitespace; on a mismatch a diagnostic is pushed and the stream stays at
    the failure point. *)
Definition Expect (expect_c : ascii) : M unit :=
  SkipWhitespace ;;
  fun p =>
    if NextIs expect_c p then (Char1 ;; ret tt) p
    else (None, PushError "Expected a different character." p).

(** Modelled from the spec: [MaybeNone] (line 615) is declared without a
    body; section 4.4, the blocked-value keyword [None] is matched with one
    token of lookahead and nothing beyond the keyword is consumed. *)
Definition MaybeNone : M unit :=
  fun p =>
    match LookCharN 4 p with
    | (Some buf, _) =>
        if String.eqb (string_of_list_ascii buf) "None"
        then (CharN 4 ;; ret tt) p
        else (None, p)
    | (None, _) => (None, p)
    end.

(** Modelled from the spec: [ReadBasicType] at [int32_t] (line 396) is
    declared without a body; section 4.4, decode exactly one literal at the
    current position: an optional sign and a non-empty run of decimal digits
    whose value fits [int32_t]. *)
Definition ReadBasicType_int32 : M Z :=
  fun p =>
    let negative := NextIs "-" p in
    let signed := negative || NextIs "+" p in
    ((if signed then (Char1 ;; ret tt) else ret tt) ;;
     fun q =>
       let ds := leading_digits (rest q) in
       let v := if negative then - decimal_value ds else decimal_value ds in
       match ds with
       | [] => (None, PushError "Expected an integer literal." q)
       | _ :: _ =>
           if (- 2 ^ 31 <=? v) && (v <=? 2 ^ 31 - 1)
           then (Some v, consume ds q)
           else (None, PushError "Integer literal out of range."
                         (consume ds q))
       end) p.

Section Decoder.
Context {T : Type} `{BasicType T}.

(** Modelled from the spec: [ReadBasicType] at [nonstd::optional<T>] (lines
    329-386) is declared without a body; section 4.4, as bare, but first
    attempts to match the keyword [None] (the comment at lines 323-325:
    return true but the value is set to nullopt for [None]). *)
Definition ReadBasicType_optional : M (option T) :=
  fun p =>
    match MaybeNone p with
    | (Some _, p') => (Some None, p')
    | (None, p') => (v <- ReadBasicType ;; ret (Some v)) p'
    end.

(** Modelled from the spec: the loop of [SepBy1BasicType], whose body is
    missing. After an element, either a separator and a further element
    follow, or the list ends - at a separator directly before [end_symbol],
    or where no separator follows. *)
Fixpoint SepBy1BasicType_loop (fuel : nat) (sep end_symbol : ascii)
    (acc : list T) : M (list T) :=
  match fuel with
  | O => fail
  | S fuel' =>
      SkipWhitespace ;;
      fun p =>
        if NextIs sep p then
          (Char1 ;; SkipWhitespace ;;
           fun q =>
             if NextIs end_symbol q then (Some acc, q)
             else
               (v <- ReadBasicType ;;
                SepBy1BasicType_loop fuel' sep end_symbol (acc ++ [v])) q) p
        else (Some acc, p)
  end.

(** Modelled from the spec: [SepBy1BasicType(sep, end_symbol, result)]
    (lines 487-493) is declared without a body; one or more values of type
    [T] separated by [sep], where [sep] may also appear after the last item
    (the comments at lines 488-489 and 508-509). Every turn of the loop
    consumes a separator, so the number of unread characters bounds the
    number of turns. *)
Definition SepBy1BasicType (sep end_symbol : ascii) : M (list T) :=
  SkipWhitespace ;;
  fun p =>
    match ReadBasicType p with
    | (Some v, p') =>
        SepBy1BasicType_loop (S (List.length (rest p'))) sep end_symbol
          [v] p'
    | (None, p') =>
        (None, PushError "Not starting with the value of requested type."
                 p')
    end.

(** Modelled from the spec: [ParseBasicTypeTuple<T, N>] (lines 464-465) is
    declared without a body; section 4.4, an opening parenthesis, [N] comma-
    separated bare values, an optional trailing comma, a closing parenthesis
    (the comment at line 462: Sep1By between parentheses). *)
Definition ParseBasicTypeTuple (N : nat) : M (list T) :=
  Expect "(" ;;
  values <- SepBy1BasicType "," ")" ;;
  Expect ")" ;;
  fun p =>
    if Nat.eqb (List.length values) N then (Some values, p)
    else (None, PushError "The number of tuple elements is wrong." p).

(** Modelled from the spec: [ParseBasicTypeArray<T>] (lines 504-505) is
    declared without a body; section 4.4, an opening bracket, zero or more
    comma-separated elements, a trailing comma permitted, a closing bracket. *)
Definition ParseBasicTypeArray : M (list T) :=
  Expect "[" ;;
  SkipWhitespace ;;
  fun p =>
    if NextIs "]" p then (Char1 ;; ret []) p
    else (values <- SepBy1BasicType "," "]" ;; Expect "]" ;; ret values) p.
End Decoder.
End Lexer.

Arguments ReadBasicType_optional advance_cursor {T H}.
Arguments SepBy1BasicType_loop advance_cursor {T H}.
Arguments SepBy1BasicType advance_cursor {T H}.
Arguments ParseBasicTypeTuple advance_cursor {T H}.
Arguments ParseBasicTypeArray advance_cursor {T H}.

(** ** The literal forms of section 4.4, stated on the input text *)

Section Grammar.
Variable advance_cursor : ascii -> Cursor -> Cursor.

Definition blanks (ws : list ascii) : Prop :=
  Forall (fun c => is_whitespace c = true) ws.

(** The unread input starts with the character [c]. *)
Definition StartsWith (c : ascii) (p : AsciiParser) : Prop :=
  exists r, rest p = c :: r.

(** [Blank p p']: the whitespace in front of the next token, all of it,
    is consumed between [p] and [p']. *)
Definition Blank (p p' : AsciiParser) : Prop :=
  exists ws r,
    blanks ws /\ rest p = ws ++ r /\
    (forall c, ~ (is_whitespace c = true /\ hd_error r = Some c)) /\
    p' = consume advance_cursor ws p.

(** [Token c p p']: the unread input at [p] is whitespace followed by the
    punctuation character [c], and [p'] is the state behind [c]. *)
Definition Token (c : ascii) (p p' : AsciiParser) : Prop :=
  exists ws r,
    blanks ws /\ is_whitespace c = false /\ rest p = ws ++ c :: r /\
    p' = consume advance_cursor (ws ++ [c]) p.

Section Lists.
Context {T : Type} `{BasicType T}.

(** [Literal p v p']: the bare decoder of [T] reads [v] at [p] and
    leaves the parser in [p']. *)
Definition Literal (p : AsciiParser) (v : T) (p' : AsciiParser) : Prop :=
  ReadBasicType p = (Some v, p').

(** Zero or more further items, each behind a separator.  A separator
    directly in front of the closing symbol does not open an item: it
    is the trailing separator. *)
Inductive MoreItems (sep end_symbol : ascii)
  : AsciiParser -> list T -> AsciiParser -> Prop :=
| MoreItems_nil : forall p, MoreItems sep end_symbol p [] p
| MoreItems_cons : forall p p1 p2 v p3 vs p',
    Token sep p p1 ->
    Blank p1 p2 ->
    ~ StartsWith end_symbol p2 ->
    Literal p2 v p3 ->
    MoreItems sep end_symbol p3 vs p' ->
    MoreItems sep end_symbol p (v :: vs) p'.

(** One or more items separated by [sep]. *)
Definition ItemList (sep end_symbol : ascii)
    (p : AsciiParser) (vs : list T) (p' : AsciiParser) : Prop :=
  exists p1 v p2 vs',
    Blank p p1 /\ Literal p1 v p2 /\
    MoreItems sep end_symbol p2 vs' p' /\ vs = v :: vs'.

(** The closing symbol, with at most one separator in front of it. *)
Definition Closing (sep end_symbol : ascii) (p p' : AsciiParser) : Prop :=
  Token end_symbol p p' \/
  exists p1, Token sep p p1 /\ Token end_symbol p1 p'.

(** [(] item [,] ... [,] item [)] with exactly [N] items and an optional
    trailing comma. *)
Definition TupleForm (N : nat)
    (p : AsciiParser) (vs : list T) (p' : AsciiParser) : Prop :=
  List.length vs = N /\
  exists p1 p2,
    Token "(" p p1 /\ ItemList "," ")" p1 vs p2 /\ Closing "," ")" p2 p'.

(** Either the empty array, or a non-empty list of items in brackets
    with an optional trailing comma. *)
Definition ArrayForm
    (p : AsciiParser) (vs : list T) (p' : AsciiParser) : Prop :=
  (vs = [] /\ exists p1, Token "[" p p1 /\ Token "]" p1 p') \/
  (exists p1 p2,
     Token "[" p p1 /\ (forall p1', Blank p1 p1' -> ~ StartsWith "]" p1') /\
     ItemList "," "]" p1 vs p2 /\ Closing "," "]" p2 p').
End Lists.

(** A decoder that only ever moves forward over the bytes it was given
    (section 5: the stream is advanced monotonically except during
    explicit checkpoint restoration). *)
Definition Forward {A : Type} (m : M A) : Prop :=
  forall p a p',
    m p = (Some a, p') ->
    binary (_sr p') = binary (_sr p) /\ (idx (_sr p) <= idx (_sr p'))%N.

(** ** Scripts of lexer calls, for the checkpoint round trip *)

Inductive LexOp : Type :=
| OpLookChar1
| OpLookCharN (n : nat)
| OpChar1
| OpCharN (n : nat)
| OpRewind (offset : N)
| OpSeekTo (pos : N)
| OpSkipWhitespace
| OpExpect (c : ascii)
| OpMaybeNone
| OpPushError (msg : string)
| OpPopError.

(** What the caller of a lexer primitive sees: the success flag and the
    characters handed back. *)
Inductive Observed : Type :=
| ObsFail
| ObsOk
| ObsChar (c : ascii)
| ObsChars (cs : list ascii).

Definition observe {A : Type} (f : A -> Observed) (r : option A * AsciiParser)
  : Observed * AsciiParser :=
  match r with
  | (Some a, p) => (f a, p)
  | (None, p) => (ObsFail, p)
  end.

Definition run_op (op : LexOp) (p : AsciiParser) : Observed * AsciiParser :=
  match op with
  | OpLookChar1 => observe ObsChar (LookChar1 p)
  | OpLookCharN n => observe ObsChars (LookCharN n p)
  | OpChar1 => observe ObsChar (Char1 advance_cursor p)
  | OpCharN n => observe ObsChars (CharN advance_cursor n p)
  | OpRewind offset => observe (fun _ => ObsOk) (Rewind offset p)
  | OpSeekTo pos => observe (fun _ => ObsOk) (SeekTo pos p)
  | OpSkipWhitespace =>
      observe (fun _ => ObsOk) (SkipWhitespace advance_cursor p)
  | OpExpect c => observe (fun _ => ObsOk) (Expect advance_cursor c p)
  | OpMaybeNone => observe (fun _ => ObsOk) (MaybeNone advance_cursor p)
  | OpPushError msg => (ObsOk, PushError msg p)
  | OpPopError => (ObsOk, PopError p)
  end.

(** A script is a sequence of lexer calls in which a speculative parse
    ([Speculate body k]) saves a checkpoint, runs [body], restores the
    checkpoint and goes on with [k]. *)
Inductive Script : Type :=
| Done
| Step (op : LexOp) (k : Script)
| Speculate (body k : Script).

Fixpoint run (s : Script) (p : AsciiParser) : list Observed * AsciiParser :=
  match s with
  | Done => ([], p)
  | Step op k =>
      let (o, p1) := run_op op p in
      let (os, p2) := run k p1 in
      (o :: os, p2)
  | Speculate body k =>
      let p1 := snd (PushParserState p) in
      let (os1, p2) := run body p1 in
      let (o, p3) :=
        observe (fun _ => ObsOk) (RestoreParserState p2) in
      let (os2, p4) := run k p3 in
      (os1 ++ o :: os2, p4)
  end.

(** The representation invariant of the stream: the offset lies inside
    the input, whose size fits the [int64_t] of [ParseState]. *)
Definition stream_ok (p : AsciiParser) : Prop :=
  (idx (_sr p) <= Stream.size (_sr p))%N /\
  Z.of_N (Stream.size (_sr p)) < 2 ^ 63.

(** A call whose success flag, result and stream movement are determined
    by the stream alone (not by the cursor or the diagnostics). *)
Definition StreamOnly {A : Type} (m : M A) : Prop :=
  forall p q,
    _sr p = _sr q ->
    fst (m p) = fst (m q) /\ _sr (snd (m p)) = _sr (snd (m q)).

(** A call that keeps the stream well-formed over the same bytes and
    leaves the checkpoint stack as it found it. *)
Definition Framed {A : Type} (m : M A) : Prop :=
  forall p,
    stream_ok p ->
    stream_ok (snd (m p)) /\
    binary (_sr (snd (m p))) = binary (_sr p) /\
    parse_stack (snd (m p)) = parse_stack p.
End Grammar.

Arguments Literal {T H}.
Arguments MoreItems advance_cursor {T H}.
Arguments ItemList advance_cursor {T H}.
Arguments TupleForm advance_cursor {T H}.
Arguments ArrayForm advance_cursor {T H}.

(** ** Concrete instances used to run the model *)

(** A cursor rule: a line feed starts a new row, any other character moves
    one column on. *)
Definition line_col_cursor (c : ascii) (k : Cursor) : Cursor :=
  if Ascii.eqb c "010" then mkCursor (row k + 1) 0
  else mkCursor (row k) (col k + 1).

(** A freshly constructed parser reading [text] from its first byte. *)
Definition parser_on (text : string) : AsciiParser :=
  mkAsciiParser (mkStreamReader (list_ascii_of_string text) 0)
    [] (mkCursor 0 0) [] [] [] false false false EmptyString.

(** The element types of the overloads of [ParseBasicTypeArray] and
    [ParseTupleArray] (lines 474-505): an optional element is decoded by
    the optional form, a tuple element by [ParseBasicTypeTuple]. *)
Definition BasicType_optional (advance_cursor : ascii -> Cursor -> Cursor)
    (T : Type) (H : BasicType T) : BasicType (option T) :=
  {| ReadBasicType := ReadBasicType_optional advance_cursor |}.

Definition BasicType_tuple (advance_cursor : ascii -> Cursor -> Cursor)
    (T : Type) (H : BasicType T) (N : nat) : BasicType (list T) :=
  {| ReadBasicType := ParseBasicTypeTuple advance_cursor N |}.

(** The overload of [ReadBasicType] at [int32_t]. *)
Definition BasicType_int32 (advance_cursor : ascii -> Cursor -> Cursor)
  : BasicType Z :=
  {| ReadBasicType := ReadBasicType_int32 advance_cursor |}.

(** ** Sequences of calls on the three stacks of the header

    The error stack, the warning stack and the path stack are driven by the
    six inline member functions of lines 133-161 and 770-775.  A caller's
    use of them is a sequence of such calls. *)
Inductive StackOp : Type :=
| DoPushError (msg : string)
| DoPopError
| DoPushWarn (msg : string)
| DoPopWarn
| DoPushPath (p : string)
| DoPopPath.

Definition run_stack_op (op : StackOp) (p : AsciiParser) : AsciiParser :=
  match op with
  | DoPushError msg => PushError msg p
  | DoPopError => PopError p
  | DoPushWarn msg => PushWarn msg p
  | DoPopWarn => PopWarn p
  | DoPushPath s => PushPath s p
  | DoPopPath => PopPath p
  end.

Definition run_stack_ops (ops : list StackOp) (p : AsciiParser)
  : AsciiParser :=
  fold_left (fun q op => run_stack_op op q) ops p.

Definition is_error_op (op : StackOp) : bool :=
  match op with
  | DoPushError _ | DoPopError => true
  | _ => false
  end.

Definition is_warn_op (op : StackOp) : bool :=
  match op with
  | DoPushWarn _ | DoPopWarn => true
  | _ => false
  end.

Definition is_path_op (op : StackOp) : bool :=
  match op with
  | DoPushPath _ | DoPopPath => true
  | _ => false
  end.

(** Sequences in which every pop cancels a push made earlier in the same
    sequence on the same stack, and every push is cancelled: the calls of
    speculative sub-parses that clean up after themselves, nested or one
    after the other. *)
Inductive Balanced : list StackOp -> Prop :=
| Balanced_nil : Balanced []
| Balanced_app : forall ops ops',
    Balanced ops -> Balanced ops' -> Balanced (ops ++ ops')
| Balanced_error : forall msg ops,
    Balanced ops -> Balanced (DoPushError msg :: ops ++ [DoPopError])
| Balanced_warn : forall msg ops,
    Balanced ops -> Balanced (DoPushWarn msg :: ops ++ [DoPopWarn])
| Balanced_path : forall s ops,
    Balanced ops -> Balanced (DoPushPath s :: ops ++ [DoPopPath]).

(** ** The callback members (lines 220-287 and 829-833) *)

(** [std::map<std::string, V>] through the two operations the header and
    its users need: [m[k] = v] (insert or assign) and lookup.  An entry
    list with one entry per key; the header never iterates over the maps,
    so the order of the entries is not observable. *)
Module StdMap.
Section Ops.
Context {V : Type}.

Fixpoint find (k : string) (m : list (string * V)) : option V :=
  match m with
  | [] => None
  | (k', v) :: m' => if String.eqb k' k then Some v else find k m'
  end.

Fixpoint assign (k : string) (v : V) (m : list (string * V))
  : list (string * V) :=
  match m with
  | [] => [(k, v)]
  | (k', v') :: m' =>
      if String.eqb k' k then (k', v) :: m' else (k', v') :: assign k v m'
  end.

Definition size (m : list (string * V)) : N := N.of_nat (List.length m).

(** The representation invariant of a [std::map]: no key occurs twice. *)
Definition unique_keys (m : list (string * V)) : Prop :=
  NoDup (List.map fst m).
End Ops.
End StdMap.

Section Callbacks.
(** The types of [prim-types.hh] that the callback signatures mention are
    not in the header; they are parameters. *)
Variables Path Specifier Property PrimMetaMap StageMetas : Type.

(** [PrimIdxAssignFunctin] (line 220): [int64_t(const int64_t)]. *)
Definition PrimIdxAssignFunctin : Type := Z -> Z.

(** [StageMetaProcessFunction] (line 228). *)
Definition StageMetaProcessFunction : Type := StageMetas -> bool.

(** [PrimConstructFunction] (lines 255-260). *)
Definition PrimConstructFunction : Type :=
  Path -> Specifier -> Path -> Z -> Z ->
  list (string * Property) -> PrimMetaMap -> expected bool string.

(** [PostPrimConstructFunction] (lines 280-283). *)
Definition PostPrimConstructFunction : Type :=
  Path -> Z -> Z -> expected bool string.

(** The callback members of [AsciiParser] (lines 829-833). *)
Record Callbacks : Type := mkCallbacks {
  _prim_idx_assign_fun : std_function PrimIdxAssignFunctin;
  _stage_meta_process_fun : std_function StageMetaProcessFunction;
  _prim_construct_fun_map :
    list (string * std_function PrimConstructFunction);
  _post_prim_construct_fun_map :
    list (string * std_function PostPrimConstructFunction)
}.

(** [RegisterPrimIdxAssignFunction] (lines 221-223). *)
Definition RegisterPrimIdxAssignFunction
    (f : std_function PrimIdxAssignFunctin) (cb : Callbacks) : Callbacks :=
  mkCallbacks f (_stage_meta_process_fun cb) (_prim_construct_fun_map cb)
    (_post_prim_construct_fun_map cb).

(** [RegisterStageMetaProcessFunction] (lines 234-236). *)
Definition RegisterStageMetaProcessFunction
    (f : std_function StageMetaProcessFunction) (cb : Callbacks)
  : Callbacks :=
  mkCallbacks (_prim_idx_assign_fun cb) f (_prim_construct_fun_map cb)
    (_post_prim_construct_fun_map cb).

(** [RegisterPrimConstructFunction] (lines 272-275). *)
Definition RegisterPrimConstructFunction (prim_type : string)
    (f : std_function PrimConstructFunction) (cb : Callbacks) : Callbacks :=
  mkCallbacks (_prim_idx_assign_fun cb) (_stage_meta_process_fun cb)
    (StdMap.assign prim_type f (_prim_construct_fun_map cb))
    (_post_prim_construct_fun_map cb).

(** [RegisterPostPrimConstructFunction] (lines 284-287). *)
Definition RegisterPostPrimConstructFunction (prim_type : string)
    (f : std_function PostPrimConstructFunction) (cb : Callbacks)
  : Callbacks :=
  mkCallbacks (_prim_idx_assign_fun cb) (_stage_meta_process_fun cb)
    (_prim_construct_fun_map cb)
    (StdMap.assign prim_type f (_post_prim_construct_fun_map cb)).

(** A caller's registrations, made in the order of the list. *)
Definition RegisterPrimConstructFunctions
    (regs : list (string * std_function PrimConstructFunction))
    (cb : Callbacks) : Callbacks :=
  fold_left (fun c r => RegisterPrimConstructFunction (fst r) (snd r) c)
    regs cb.
End Callbacks.

Arguments mkCallbacks {Path Specifier Property PrimMetaMap StageMetas}.
Arguments _prim_idx_assign_fun {Path Specifier Property PrimMetaMap StageMetas}.
Arguments _stage_meta_process_fun
  {Path Specifier Property PrimMetaMap StageMetas}.
Arguments _prim_construct_fun_map
  {Path Specifier Property PrimMetaMap StageMetas}.
Arguments _post_prim_construct_fun_map
  {Path Specifier Property PrimMetaMap StageMetas}.
Arguments RegisterPrimIdxAssignFunction
  {Path Specifier Property PrimMetaMap StageMetas}.
Arguments RegisterStageMetaProcessFunction
  {Path Specifier Property PrimMetaMap StageMetas}.
Arguments RegisterPrimConstructFunction
  {Path Specifier Property PrimMetaMap StageMetas}.
Arguments RegisterPostPrimConstructFunction
  {Path Specifier Property PrimMetaMap StageMetas}.
Arguments RegisterPrimConstructFunctions
  {Path Specifier Property PrimMetaMap StageMetas}.

(** * Properties of the member functions defined in the header *)

Lemma PopError_PushError : forall msg p, PopError (PushError msg p) = p.
Proof.
  intros msg p. destruct p; reflexivity.
Qed.

Lemma PopWarn_PushWarn : forall msg p, PopWarn (PushWarn msg p) = p.
Proof.
  intros msg p. destruct p; reflexivity.
Qed.

Lemma PopErrors_PushErrors :
  forall msgs p, PopErrors (List.length msgs) (PushErrors msgs p) = p.
Proof.
  induction msgs as [|m msgs IH]; intros p.
  - reflexivity.
  - change (PopError (PopErrors (List.length msgs)
                        (PushErrors msgs (PushError m p))) = p).
    rewrite IH. apply PopError_PushError.
Qed.

(** C5: for every parser state and every list of N messages, N calls of
    [PushError] followed by N calls of [PopError] give back the parser state
    from before the first push; in particular the error stack, and with it
    the report rendered from it by [GetError], are the same as before. *)
Theorem PushError_PopError_symmetry :
  forall (render_report : list ErrorDiagnositc -> string)
         (p : AsciiParser) (msgs : list string),
    let p' := PopErrors (List.length msgs) (PushErrors msgs p) in
    p' = p /\
    err_stack p' = err_stack p /\
    GetError render_report p' = GetError render_report p.
Proof.
  intros render_report p msgs p'.
  assert (E : p' = p) by apply PopErrors_PushErrors.
  rewrite E. repeat split.
Qed.

Lemma PopError_fields :
  forall p,
    err_stack (PopError p) = tl (err_stack p) /\
    warn_stack (PopError p) = warn_stack p /\
    _path_stack (PopError p) = _path_stack p /\
    _sr (PopError p) = _sr p /\
    _curr_cursor (PopError p) = _curr_cursor p /\
    parse_stack (PopError p) = parse_stack p /\
    _sub_layered (PopError p) = _sub_layered p /\
    _referenced (PopError p) = _referenced p /\
    _payloaded (PopError p) = _payloaded p /\
    _base_dir (PopError p) = _base_dir p.
Proof.
  intros p. unfold PopError.
  destruct (err_stack p) as [|d s] eqn:E; simpl; rewrite ?E; repeat split.
Qed.

Lemma PopWarn_fields :
  forall p,
    warn_stack (PopWarn p) = tl (warn_stack p) /\
    err_stack (PopWarn p) = err_stack p /\
    _path_stack (PopWarn p) = _path_stack p /\
    _sr (PopWarn p) = _sr p /\
    _curr_cursor (PopWarn p) = _curr_cursor p /\
    parse_stack (PopWarn p) = parse_stack p /\
    _sub_layered (PopWarn p) = _sub_layered p /\
    _referenced (PopWarn p) = _referenced p /\
    _payloaded (PopWarn p) = _payloaded p /\
    _base_dir (PopWarn p) = _base_dir p.
Proof.
  intros p. unfold PopWarn.
  destruct (warn_stack p) as [|d s] eqn:E; simpl; rewrite ?E; repeat split.
Qed.

(** C6: [PopError] and [PopWarn] remove exactly the top entry of their own
    stack when it is not empty - the entry pushed last - so that the stack
    read back afterwards is the stack below that entry, and leave the
    parser as it is when the stack is empty; every other member read back
    afterwards is what it was; they are total, so they never fail. *)
Theorem PopError_PopWarn_contract :
  forall p : AsciiParser,
    (forall d s, err_stack p = d :: s ->
                 err_stack (PopError p) = s /\
                 PopError p = set_err_stack s p) /\
    (err_stack p = [] -> PopError p = p /\ err_stack (PopError p) = []) /\
    (forall d s, warn_stack p = d :: s ->
                 warn_stack (PopWarn p) = s /\
                 PopWarn p = set_warn_stack s p) /\
    (warn_stack p = [] -> PopWarn p = p /\ warn_stack (PopWarn p) = []) /\
    (forall msg, PopError (PushError msg p) = p) /\
    (forall msg, PopWarn (PushWarn msg p) = p) /\
    (forall msg,
        err_stack (PopError (PushError msg p)) = err_stack p /\
        warn_stack (PopWarn (PushWarn msg p)) = warn_stack p) /\
    (err_stack (PopError p) = tl (err_stack p) /\
     warn_stack (PopError p) = warn_stack p /\
     _path_stack (PopError p) = _path_stack p /\
     _sr (PopError p) = _sr p /\
     _curr_cursor (PopError p) = _curr_cursor p /\
     parse_stack (PopError p) = parse_stack p /\
     _sub_layered (PopError p) = _sub_layered p /\
     _referenced (PopError p) = _referenced p /\
     _payloaded (PopError p) = _payloaded p /\
     _base_dir (PopError p) = _base_dir p) /\
    (warn_stack (PopWarn p) = tl (warn_stack p) /\
     err_stack (PopWarn p) = err_stack p /\
     _path_stack (PopWarn p) = _path_stack p /\
     _sr (PopWarn p) = _sr p /\
     _curr_cursor (PopWarn p) = _curr_cursor p /\
     parse_stack (PopWarn p) = parse_stack p /\
     _sub_layered (PopWarn p) = _sub_layered p /\
     _referenced (PopWarn p) = _referenced p /\
     _payloaded (PopWarn p) = _payloaded p /\
     _base_dir (PopWarn p) = _base_dir p).
Proof.
  intros p.
  pose proof (PopError_fields p) as FE.
  pose proof (PopWarn_fields p) as FW.
  split; [|split; [|split; [|split; [|split; [|split; [|split; [|split]]]]]]].
  - intros d s E. split.
    + destruct FE as (T & _). rewrite T, E. reflexivity.
    + unfold PopError. rewrite E. reflexivity.
  - intros E. split.
    + unfold PopError. rewrite E. reflexivity.
    + destruct FE as (T & _). rewrite T, E. reflexivity.
  - intros d s E. split.
    + destruct FW as (T & _). rewrite T, E. reflexivity.
    + unfold PopWarn. rewrite E. reflexivity.
  - intros E. split.
    + unfold PopWarn. rewrite E. reflexivity.
    + destruct FW as (T & _). rewrite T, E. reflexivity.
  - intros msg. apply PopError_PushError.
  - intros msg. apply PopWarn_PushWarn.
  - intros msg. split.
    + destruct (PopError_fields (PushError msg p)) as (T & _). rewrite T.
      reflexivity.
    + destruct (PopWarn_fields (PushWarn msg p)) as (T & _). rewrite T.
      reflexivity.
  - exact FE.
  - exact FW.
Qed.

(** C7: for every combination of the three load-state flags, [IsToplevel]
    is true if and only if [IsReferenced], [IsSubLayered] and [IsPayloaded]
    are all false. *)
Theorem IsToplevel_iff :
  forall p : AsciiParser,
    IsToplevel p = true <->
    IsReferenced p = false /\ IsSubLayered p = false /\ IsPayloaded p = false.
Proof.
  intros p. unfold IsToplevel.
  destruct (IsReferenced p), (IsSubLayered p), (IsPayloaded p); simpl;
    split; intros; try discriminate; repeat split;
    match goal with
    | H : _ /\ _ /\ _ |- _ => destruct H as (? & ? & ?); discriminate
    | _ => idtac
    end.
Qed.

Lemma PathStackDepth_nonempty :
  forall p, PathStackDepth p = true <-> _path_stack p <> [].
Proof.
  intros p. unfold PathStackDepth, bool_of_size_t, StdStack.size.
  destruct (_path_stack p) as [|s l]; simpl.
  - split; [discriminate | intros E; contradiction E; reflexivity].
  - split; [discriminate | reflexivity].
Qed.

(** C8: [PathStackDepth] returns a boolean that is true if and only if the
    path stack is not empty; the count itself is lost: a stack of depth one
    more gives the same answer as any other non-empty stack. *)
Theorem PathStackDepth_is_presence :
  forall p : AsciiParser,
    (PathStackDepth p = true <-> _path_stack p <> []) /\
    (PathStackDepth p = false <-> _path_stack p = []) /\
    (forall a b,
        PathStackDepth (PushPath b (PushPath a p)) =
        PathStackDepth (PushPath a p)) /\
    (forall q : AsciiParser,
        _path_stack p <> [] -> _path_stack q <> [] ->
        PathStackDepth p = PathStackDepth q).
Proof.
  intros p. split; [apply PathStackDepth_nonempty|]. split; [|split].
  - destruct (PathStackDepth_nonempty p) as [H1 H2].
    destruct (_path_stack p) as [|s l] eqn:E.
    + split; [reflexivity|]. intros _.
      destruct (PathStackDepth p) eqn:D; [|reflexivity].
      exfalso. apply (H1 eq_refl). reflexivity.
    + split; [|discriminate]. intros D.
      rewrite H2 in D; [discriminate D | discriminate].
  - intros a b. reflexivity.
  - intros q Hp Hq.
    apply PathStackDepth_nonempty in Hp.
    apply PathStackDepth_nonempty in Hq. congruence.
Qed.

(** C9: [PushError] puts exactly one diagnostic, made of the message and of
    the cursor at the time of the call, on top of the error stack, under
    which the earlier diagnostics stay as they were; the warning stack, the
    cursor, the stream and every other member are unchanged.  [PushWarn]
    does the same to the warning stack and leaves the error stack alone. *)
Theorem PushError_PushWarn_frame :
  forall (p : AsciiParser) (msg : string),
    (err_stack (PushError msg p) =
       mkErrorDiagnositc msg (_curr_cursor p) :: err_stack p /\
     PushError msg p = set_err_stack (err_stack (PushError msg p)) p /\
     warn_stack (PushError msg p) = warn_stack p /\
     _curr_cursor (PushError msg p) = _curr_cursor p /\
     _sr (PushError msg p) = _sr p /\
     parse_stack (PushError msg p) = parse_stack p /\
     _path_stack (PushError msg p) = _path_stack p) /\
    (warn_stack (PushWarn msg p) =
       mkErrorDiagnositc msg (_curr_cursor p) :: warn_stack p /\
     PushWarn msg p = set_warn_stack (warn_stack (PushWarn msg p)) p /\
     err_stack (PushWarn msg p) = err_stack p /\
     _curr_cursor (PushWarn msg p) = _curr_cursor p /\
     _sr (PushWarn msg p) = _sr p /\
     parse_stack (PushWarn msg p) = parse_stack p /\
     _path_stack (PushWarn msg p) = _path_stack p).
Proof.
  intros p msg. unfold PushError, PushWarn, StdStack.push.
  destruct p as [sr ps [r c] es ws cs f1 f2 f3 bd]; simpl.
  repeat split.
Qed.

(** A schema entry made by the defaulted default constructor has no
    post-parse handler: validating a value with it does not return success
    but throws [std::bad_function_call]. *)
Lemma default_constructed_VariableDef_has_no_handler :
  VariableDef.post_parse_handler VariableDef.default_constructed = None /\
  VariableDef.call_post_parse_handler VariableDef.default_constructed "model"
  = bad_function_call /\
  VariableDef.call_post_parse_handler VariableDef.default_constructed "model"
  <> Returned (Value true).
Proof. repeat split. discriminate. Qed.

(** C10 (as amended): [VariableDef::DefaultPostParseHandler] returns the
    value [true] for every input string and never an error message; hence
    a [VariableDef] built by the constructor of lines 187-189 without an
    explicit post-parse handler holds that function as its handler, and
    validating any string with it returns success. *)
Theorem DefaultPostParseHandler_accepts :
  (forall s : string, VariableDef.DefaultPostParseHandler s = Value true) /\
  (forall (s msg : string),
      VariableDef.DefaultPostParseHandler s <> Unexpected msg) /\
  (forall (ty n : string) (a : option bool),
      VariableDef.post_parse_handler (VariableDef.make ty n a None)
      = Some VariableDef.DefaultPostParseHandler) /\
  (forall (ty n : string) (a : option bool) (s : string),
      VariableDef.call_post_parse_handler (VariableDef.make ty n a None) s
      = Returned (Value true)).
Proof.
  repeat split.
  intros s msg. unfold VariableDef.DefaultPostParseHandler. discriminate.
Qed.

(** * Properties of the lexer *)

Lemma bind_Some :
  forall (A B : Type) (m : M A) (f : A -> M B) p b p',
    bind m f p = (Some b, p') <->
    exists a p1, m p = (Some a, p1) /\ f a p1 = (Some b, p').
Proof.
  intros A B m f p b p'. unfold bind. split.
  - destruct (m p) as [[a|] p1]; intros E.
    + exists a, p1. split; [reflexivity | exact E].
    + discriminate E.
  - intros (a & p1 & E1 & E2). rewrite E1. exact E2.
Qed.

Lemma nth_error_hd_skipn :
  forall (A : Type) (n : nat) (l : list A),
    nth_error l n = hd_error (skipn n l).
Proof.
  induction n as [|n IH]; intros [|x l]; simpl; try reflexivity.
  apply IH.
Qed.

Lemma skipn_S_tl :
  forall (A : Type) (n : nat) (l : list A), skipn (S n) l = tl (skipn n l).
Proof.
  induction n as [|n IH]; intros [|x l]; try reflexivity.
  change (skipn (S (S n)) (x :: l)) with (skipn (S n) l).
  change (skipn (S n) (x :: l)) with (skipn n l).
  apply IH.
Qed.

Lemma peek1_rest :
  forall p, Stream.peek1 (_sr p) = hd_error (rest p).
Proof.
  intros p. unfold Stream.peek1, rest, Stream.rest.
  apply nth_error_hd_skipn.
Qed.

Lemma NextIs_true :
  forall c p, NextIs c p = true <-> StartsWith c p.
Proof.
  intros c p. unfold NextIs, StartsWith. rewrite peek1_rest.
  destruct (rest p) as [|c' r]; simpl.
  - split; [discriminate | intros (r & E); discriminate E].
  - split.
    + intros E. apply Ascii.eqb_eq in E. subst c'. exists r. reflexivity.
    + intros (r' & E). inversion E. apply Ascii.eqb_refl.
Qed.

Lemma NextIs_false :
  forall c p, NextIs c p = false <-> ~ StartsWith c p.
Proof.
  intros c p. rewrite <- NextIs_true.
  destruct (NextIs c p); split; intros; try discriminate; try reflexivity.
  exfalso; auto.
Qed.

Lemma Forward_ret : forall (A : Type) (a : A), Forward (ret a).
Proof.
  intros A a p b p' E. inversion E. split; [reflexivity | lia].
Qed.

Lemma Forward_bind :
  forall (A B : Type) (m : M A) (f : A -> M B),
    Forward m -> (forall a, Forward (f a)) -> Forward (bind m f).
Proof.
  intros A B m f Fm Ff p b p' E.
  apply bind_Some in E. destruct E as (a & p1 & E1 & E2).
  destruct (Fm _ _ _ E1) as (B1 & I1). destruct (Ff a _ _ _ E2) as (B2 & I2).
  split; [congruence | lia].
Qed.

Section LexerFacts.
Variable advance_cursor : ascii -> Cursor -> Cursor.

Local Abbreviation consume1 := (consume1 advance_cursor).
Local Abbreviation consume := (consume advance_cursor).
Local Abbreviation skip_whitespace := (skip_whitespace advance_cursor).
Local Abbreviation Char1 := (Char1 advance_cursor).
Local Abbreviation CharN := (CharN advance_cursor).
Local Abbreviation SkipWhitespace := (SkipWhitespace advance_cursor).
Local Abbreviation Expect := (Expect advance_cursor).
Local Abbreviation MaybeNone := (MaybeNone advance_cursor).
Local Abbreviation Blank := (Blank advance_cursor).
Local Abbreviation Token := (Token advance_cursor).

Lemma rest_consume1 : forall c p, rest (consume1 c p) = tl (rest p).
Proof.
  intros c p. unfold rest, Stream.rest. simpl.
  replace (N.to_nat (idx (_sr p) + 1)) with (S (N.to_nat (idx (_sr p))))
    by lia.
  apply skipn_S_tl.
Qed.

Lemma consume1_frame :
  forall c p,
    binary (_sr (consume1 c p)) = binary (_sr p) /\
    idx (_sr (consume1 c p)) = (idx (_sr p) + 1)%N /\
    err_stack (consume1 c p) = err_stack p /\
    warn_stack (consume1 c p) = warn_stack p /\
    parse_stack (consume1 c p) = parse_stack p.
Proof. intros c p. repeat split. Qed.

Lemma consume_frame :
  forall cs p,
    binary (_sr (consume cs p)) = binary (_sr p) /\
    idx (_sr (consume cs p)) = (idx (_sr p) + N.of_nat (List.length cs))%N /\
    err_stack (consume cs p) = err_stack p /\
    warn_stack (consume cs p) = warn_stack p /\
    parse_stack (consume cs p) = parse_stack p.
Proof.
  induction cs as [|c cs IH]; intros p.
  - simpl. repeat split. lia.
  - change (consume (c :: cs) p) with (consume cs (consume1 c p)).
    destruct (IH (consume1 c p)) as (B & I & E & W & S).
    destruct (consume1_frame c p) as (B1 & I1 & E1 & W1 & S1).
    rewrite B, I, E, W, S, B1, I1, E1, W1, S1.
    repeat split. cbn [List.length]. lia.
Qed.

Lemma rest_consume :
  forall cs r p, rest p = cs ++ r -> rest (consume cs p) = r.
Proof.
  induction cs as [|c cs IH]; intros r p E.
  - exact E.
  - change (consume (c :: cs) p) with (consume cs (consume1 c p)).
    apply IH. rewrite rest_consume1, E. reflexivity.
Qed.

Lemma consume_app :
  forall cs cs' p, consume (cs ++ cs') p = consume cs' (consume cs p).
Proof. intros cs cs' p. apply fold_left_app. Qed.

Lemma Char1_cons :
  forall p c r, rest p = c :: r -> Char1 p = (Some c, consume1 c p).
Proof.
  intros p c r E. unfold Char1. rewrite peek1_rest, E. reflexivity.
Qed.

Lemma CharN_prefix :
  forall cs r p,
    rest p = cs ++ r -> CharN (List.length cs) p = (Some cs, consume cs p).
Proof.
  induction cs as [|c cs IH]; intros r p E.
  - reflexivity.
  - cbn [List.length CharN]. unfold bind.
    rewrite (Char1_cons p c (cs ++ r) E).
    rewrite (IH r (consume1 c p)).
    + reflexivity.
    + rewrite rest_consume1, E. reflexivity.
Qed.
(** The state behind the whitespace in front of the next token. *)
Local Abbreviation skipws p := (skip_whitespace (rest p) p).

(** The text [r] does not start with whitespace. *)
Local Abbreviation solid r :=
  (forall c, ~ (is_whitespace c = true /\ hd_error r = Some c)).

Lemma skip_whitespace_spec :
  forall cs p,
    exists ws r,
      cs = ws ++ r /\ blanks ws /\ solid r /\
      skip_whitespace cs p = consume ws p.
Proof.
  induction cs as [|c cs IH]; intros p.
  - exists [], []. repeat split.
    + constructor.
    + intros c (_ & E). discriminate E.
  - cbn [skip_whitespace]. destruct (is_whitespace c) eqn:W.
    + destruct (IH (consume1 c p)) as (ws & r & E & B & S & K).
      exists (c :: ws), r. repeat split.
      * rewrite E. reflexivity.
      * constructor; assumption.
      * exact S.
      * exact K.
    + exists [], (c :: cs). repeat split.
      * constructor.
      * intros c' (W' & E). inversion E. subst c'. congruence.
Qed.

Lemma blank_split_unique :
  forall ws ws' r r',
    blanks ws -> blanks ws' -> solid r -> solid r' ->
    ws ++ r = ws' ++ r' -> ws = ws' /\ r = r'.
Proof.
  induction ws as [|c ws IH]; intros ws' r r' B B' S S' E.
  - destruct ws' as [|c' ws'].
    + split; [reflexivity | exact E].
    + exfalso. inversion B' as [|? ? W _]. subst. simpl in E. subst r.
      apply (S c'). split; [exact W | reflexivity].
  - destruct ws' as [|c' ws'].
    + exfalso. inversion B as [|? ? W _]. subst. simpl in E. subst r'.
      apply (S' c). split; [exact W | reflexivity].
    + inversion E. subst c'. inversion B. inversion B'. subst.
      destruct (IH ws' r r') as (E1 & E2); try assumption.
      split; [f_equal; exact E1 | exact E2].
Qed.

Lemma skip_whitespace_solid :
  forall cs p, solid cs -> skip_whitespace cs p = p.
Proof.
  intros [|c cs] p S; [reflexivity|]. cbn [skip_whitespace].
  destruct (is_whitespace c) eqn:W; [|reflexivity].
  exfalso. apply (S c). split; [exact W | reflexivity].
Qed.

Lemma skipws_spec :
  forall p,
    exists ws r,
      rest p = ws ++ r /\ blanks ws /\ solid r /\
      skipws p = consume ws p /\ rest (skipws p) = r.
Proof.
  intros p.
  destruct (skip_whitespace_spec (rest p) p) as (ws & r & E & B & S & K).
  exists ws, r. repeat split; try assumption.
  rewrite K. apply rest_consume. exact E.
Qed.

Lemma skipws_idem : forall p, skipws (skipws p) = skipws p.
Proof.
  intros p. destruct (skipws_spec p) as (ws & r & _ & _ & S & _ & R).
  apply skip_whitespace_solid. rewrite R. exact S.
Qed.

Lemma Blank_iff : forall p p', Blank p p' <-> p' = skipws p.
Proof.
  intros p p'.
  destruct (skipws_spec p) as (ws & r & E & B & S & K & _).
  split.
  - intros (ws' & r' & B' & E' & S' & K').
    rewrite E in E'.
    destruct (blank_split_unique ws ws' r r' B B' S S' E') as (-> & _).
    rewrite K, K'. reflexivity.
  - intros ->. exists ws, r. repeat split; assumption.
Qed.

Lemma Token_iff :
  forall c p p',
    Token c p p' <->
    NextIs c (skipws p) = true /\ p' = consume1 c (skipws p).
Proof.
  intros c p p'.
  destruct (skipws_spec p) as (ws & r & E & B & S & K & R).
  split.
  - intros (ws' & r' & B' & W & E' & K').
    assert (S' : solid (c :: r')).
    { intros c' (W' & Hc). inversion Hc. subst c'. congruence. }
    rewrite E in E'.
    destruct (blank_split_unique ws ws' r (c :: r') B B' S S' E')
      as (-> & ->).
    split.
    + apply NextIs_true. exists r'. exact R.
    + rewrite K', consume_app, K. reflexivity.
  - intros (Hn & ->). apply NextIs_true in Hn. destruct Hn as (r' & R').
    rewrite R in R'. rewrite R' in E, S. clear R R'.
    exists ws, r'. repeat split; try assumption.
    + destruct (is_whitespace c) eqn:W; [|reflexivity].
      exfalso. apply (S c). split; [exact W | reflexivity].
    + rewrite consume_app, K. reflexivity.
Qed.

Lemma Expect_eq :
  forall c p,
    Expect c p =
    if NextIs c (skipws p) then (Some tt, consume1 c (skipws p))
    else (None, PushError "Expected a different character." (skipws p)).
Proof.
  intros c p. unfold Expect, bind, SkipWhitespace.
  destruct (NextIs c (skipws p)) eqn:Hn; [|reflexivity].
  apply NextIs_true in Hn. destruct Hn as (r & R).
  rewrite (Char1_cons _ _ _ R). reflexivity.
Qed.

Lemma Expect_Token :
  forall c p p', Expect c p = (Some tt, p') <-> Token c p p'.
Proof.
  intros c p p'. rewrite Token_iff, Expect_eq.
  destruct (NextIs c (skipws p)); split.
  - intros E. inversion E. split; reflexivity.
  - intros (_ & ->). reflexivity.
  - discriminate.
  - intros (E & _). discriminate E.
Qed.

Lemma Expect_skipws : forall c p, Expect c (skipws p) = Expect c p.
Proof. intros c p. rewrite !Expect_eq, skipws_idem. reflexivity. Qed.

Lemma MaybeNone_keyword :
  forall p r,
    rest p = ["N"; "o"; "n"; "e"]%char ++ r ->
    MaybeNone p = (Some tt, consume ["N"; "o"; "n"; "e"]%char p).
Proof.
  intros p r E. unfold MaybeNone, LookCharN. rewrite E. simpl firstn.
  cbn [List.length Nat.eqb].
  change (String.eqb (string_of_list_ascii ["N"; "o"; "n"; "e"]%char) "None")
    with true. cbv iota.
  unfold bind.
  pose proof (CharN_prefix ["N"; "o"; "n"; "e"]%char r p E) as C.
  cbn [List.length] in C. rewrite C. reflexivity.
Qed.

(** C1: for every element type [T], whatever its bare decoder is, the
    optional decode of an input that begins with the keyword [None]
    succeeds with an empty optional; the stream stands directly behind the
    keyword (four characters on, the unread text is what followed it), and
    neither an error nor a warning has been pushed. *)
Theorem ReadBasicType_optional_None :
  forall (T : Type) (H : BasicType T) (p : AsciiParser) (r : list ascii),
    rest p = "N"%char :: "o"%char :: "n"%char :: "e"%char :: r ->
    exists p',
      ReadBasicType_optional advance_cursor p = (Some None, p') /\
      rest p' = r /\
      CurrLoc p' = (CurrLoc p + 4)%N /\
      err_stack p' = err_stack p /\
      warn_stack p' = warn_stack p.
Proof.
  intros T H p r E.
  exists (consume ["N"; "o"; "n"; "e"]%char p).
  unfold ReadBasicType_optional.
  rewrite (MaybeNone_keyword p r E).
  destruct (consume_frame ["N"; "o"; "n"; "e"]%char p) as (_ & I & Er & W & _).
  repeat split; try assumption.
  apply rest_consume. exact E.
Qed.
(** ** The lexer primitives only move forward *)

Lemma forward_consume :
  forall cs p,
    binary (_sr (consume cs p)) = binary (_sr p) /\
    (idx (_sr p) <= idx (_sr (consume cs p)))%N.
Proof.
  intros cs p. destruct (consume_frame cs p) as (B & I & _).
  rewrite B, I. split; [reflexivity | lia].
Qed.

Lemma forward_skipws :
  forall p,
    binary (_sr (skipws p)) = binary (_sr p) /\
    (idx (_sr p) <= idx (_sr (skipws p)))%N.
Proof.
  intros p. destruct (skipws_spec p) as (ws & r & _ & _ & _ & K & _).
  rewrite K. apply forward_consume.
Qed.

Lemma Forward_Char1 : Forward Char1.
Proof.
  intros p c p' E. unfold Char1 in E.
  destruct (Stream.peek1 (_sr p)) as [c'|]; [|discriminate E].
  inversion E. subst. apply (forward_consume [c] p).
Qed.

Lemma Forward_CharN : forall n, Forward (CharN n).
Proof.
  induction n as [|n IH].
  - apply Forward_ret.
  - cbn [CharN]. apply Forward_bind; [apply Forward_Char1|].
    intros c. apply Forward_bind; [exact IH|].
    intros cs. apply Forward_ret.
Qed.

Lemma Forward_SkipWhitespace : Forward SkipWhitespace.
Proof.
  intros p u p' E. unfold SkipWhitespace in E. inversion E.
  apply forward_skipws.
Qed.

Lemma Forward_Expect : forall c, Forward (Expect c).
Proof.
  intros c p u p' E. rewrite Expect_eq in E.
  destruct (NextIs c (skipws p)); [|discriminate E].
  inversion E.
  destruct (forward_skipws p) as (B1 & I1).
  destruct (forward_consume [c] (skipws p)) as (B2 & I2).
  split; [exact (eq_trans B2 B1) | exact (N.le_trans _ _ _ I1 I2)].
Qed.

Lemma CharN_4_available :
  forall p,
    Nat.eqb (List.length (firstn 4 (rest p))) 4 = true ->
    CharN 4 p
    = (Some (firstn 4 (rest p)), consume (firstn 4 (rest p)) p).
Proof.
  intros p L. apply Nat.eqb_eq in L.
  pose proof (CharN_prefix (firstn 4 (rest p)) (skipn 4 (rest p)) p) as C.
  rewrite L in C. apply C. symmetry. apply firstn_skipn.
Qed.

Lemma MaybeNone_None : forall p p', MaybeNone p = (None, p') -> p' = p.
Proof.
  intros p p' E. unfold MaybeNone, LookCharN in E.
  destruct (Nat.eqb (List.length (firstn 4 (rest p))) 4) eqn:L.
  - destruct (String.eqb (string_of_list_ascii (firstn 4 (rest p))) "None").
    + unfold bind in E. rewrite (CharN_4_available p L) in E.
      discriminate E.
    + inversion E. reflexivity.
  - inversion E. reflexivity.
Qed.

Lemma Forward_MaybeNone : Forward MaybeNone.
Proof.
  intros p u p' E. unfold MaybeNone, LookCharN in E.
  destruct (Nat.eqb (List.length (firstn 4 (rest p))) 4); [|discriminate E].
  destruct (String.eqb (string_of_list_ascii (firstn 4 (rest p))) "None");
    [|discriminate E].
  revert E. apply (Forward_bind _ _ (CharN 4) (fun _ => ret tt)).
  - apply Forward_CharN.
  - intros a. apply Forward_ret.
Qed.

(** ** Separated lists *)

Lemma NextIs_unique :
  forall a b p, NextIs a p = true -> NextIs b p = true -> a = b.
Proof.
  intros a b p Ha Hb.
  apply NextIs_true in Ha. apply NextIs_true in Hb.
  destruct Ha as (ra & Ea). destruct Hb as (rb & Eb).
  rewrite Ea in Eb. inversion Eb. reflexivity.
Qed.

Lemma length_rest_consume1 :
  forall c p,
    NextIs c p = true ->
    (List.length (rest (consume1 c p)) < List.length (rest p))%nat.
Proof.
  intros c p Hn. apply NextIs_true in Hn. destruct Hn as (r & E).
  rewrite rest_consume1, E. simpl. lia.
Qed.

Lemma length_rest_skipws :
  forall p, (List.length (rest (skipws p)) <= List.length (rest p))%nat.
Proof.
  intros p. destruct (skipws_spec p) as (ws & r & E & _ & _ & _ & R).
  rewrite R, E, length_app. lia.
Qed.

Lemma length_rest_Forward :
  forall (A : Type) (m : M A) p a p',
    Forward m -> m p = (Some a, p') ->
    (List.length (rest p') <= List.length (rest p))%nat.
Proof.
  intros A m p a p' F E. destruct (F p a p' E) as (B & I).
  unfold rest, Stream.rest. rewrite !length_skipn, B. lia.
Qed.

Section SeparatedLists.
Context {T : Type} `{BasicType T}.

Local Abbreviation loop := (SepBy1BasicType_loop advance_cursor).
Local Abbreviation MoreItems := (MoreItems advance_cursor).
Local Abbreviation ItemList := (ItemList advance_cursor).
Local Abbreviation Closing := (Closing advance_cursor).

Lemma SepBy1BasicType_loop_eq :
  forall fuel sep e (acc : list T) p,
    loop (S fuel) sep e acc p =
    if NextIs sep (skipws p) then
      if NextIs e (skipws (consume1 sep (skipws p)))
      then (Some acc, skipws (consume1 sep (skipws p)))
      else
        match ReadBasicType (skipws (consume1 sep (skipws p))) with
        | (Some v, q) => loop fuel sep e (acc ++ [v]) q
        | (None, q) => (None, q)
        end
    else (Some acc, skipws p).
Proof.
  intros fuel sep e acc p. cbn [SepBy1BasicType_loop].
  unfold bind at 1. unfold SkipWhitespace at 1.
  destruct (NextIs sep (skipws p)) eqn:Hs; [|reflexivity].
  pose proof Hs as Hs'. apply NextIs_true in Hs'. destruct Hs' as (r & R).
  unfold bind at 1. rewrite (Char1_cons _ _ _ R).
  unfold bind at 1. unfold SkipWhitespace at 1.
  destruct (NextIs e (skipws (consume1 sep (skipws p)))); reflexivity.
Qed.

Lemma SepBy1BasicType_loop_sound :
  forall fuel sep e (acc : list T) p r q p',
    loop fuel sep e acc p = (Some r, q) ->
    Expect e q = (Some tt, p') ->
    exists vs p2,
      r = acc ++ vs /\ MoreItems sep e p vs p2 /\ Closing sep e p2 p'.
Proof.
  induction fuel as [|fuel IH]; intros sep e acc p r q p' L X.
  - discriminate L.
  - rewrite SepBy1BasicType_loop_eq in L.
    destruct (NextIs sep (skipws p)) eqn:Hs.
    + assert (Tk : Token sep p (consume1 sep (skipws p))).
      { apply Token_iff. split; [exact Hs | reflexivity]. }
      destruct (NextIs e (skipws (consume1 sep (skipws p)))) eqn:He.
      * inversion L. subst r q.
        rewrite Expect_skipws in X. apply Expect_Token in X.
        exists [], p. rewrite app_nil_r. repeat split.
        -- constructor.
        -- right. exists (consume1 sep (skipws p)). split; assumption.
      * destruct (ReadBasicType (skipws (consume1 sep (skipws p))))
          as [[v|] q'] eqn:R; [|discriminate L].
        destruct (IH sep e (acc ++ [v]) q' r q p' L X)
          as (vs & p2 & Er & Mi & Cl).
        exists (v :: vs), p2. repeat split.
        -- rewrite Er, <- app_assoc. reflexivity.
        -- eapply MoreItems_cons; [exact Tk | | | exact R | exact Mi].
           ++ apply Blank_iff. reflexivity.
           ++ apply NextIs_false. exact He.
        -- exact Cl.
    + inversion L. subst r q.
      rewrite Expect_skipws in X. apply Expect_Token in X.
      exists [], p. rewrite app_nil_r. repeat split.
      * constructor.
      * left. exact X.
Qed.

Lemma SepBy1BasicType_loop_complete :
  forall sep e p (vs : list T) p2,
    Forward ReadBasicType -> sep <> e ->
    MoreItems sep e p vs p2 ->
    forall p' fuel acc,
      Closing sep e p2 p' ->
      (List.length (rest p) < fuel)%nat ->
      exists q,
        loop fuel sep e acc p = (Some (acc ++ vs), q) /\
        Expect e q = (Some tt, p').
Proof.
  intros sep e p vs p2 F Ne Mi.
  induction Mi as [p|p p1 p2 v p3 vs p4 Tk Bl Ns Li Mi IH];
    intros p' fuel acc Cl Lt.
  - destruct fuel as [|fuel]; [lia|].
    rewrite SepBy1BasicType_loop_eq, app_nil_r.
    destruct Cl as [Te | (p1 & Ts & Te)].
    + pose proof Te as Te'. apply Token_iff in Te'. destruct Te' as (He & _).
      destruct (NextIs sep (skipws p)) eqn:Hs.
      * exfalso. apply Ne. exact (NextIs_unique _ _ _ Hs He).
      * exists (skipws p). split; [reflexivity|].
        rewrite Expect_skipws. apply Expect_Token. exact Te.
    + apply Token_iff in Ts. destruct Ts as (Hs & ->). rewrite Hs.
      pose proof Te as Te'. apply Token_iff in Te'. destruct Te' as (He & _).
      rewrite He. eexists. split; [reflexivity|].
      rewrite Expect_skipws. apply Expect_Token. exact Te.
  - destruct fuel as [|fuel]; [lia|].
    rewrite SepBy1BasicType_loop_eq.
    apply Token_iff in Tk. destruct Tk as (Hs & ->). rewrite Hs.
    apply Blank_iff in Bl. subst p2.
    apply NextIs_false in Ns. rewrite Ns.
    unfold Literal in Li. rewrite Li.
    destruct (IH p' fuel (acc ++ [v]) Cl) as (q & L & X).
    + pose proof (length_rest_Forward _ _ _ _ _ F Li).
      pose proof (length_rest_skipws (consume1 sep (skipws p))).
      pose proof (length_rest_consume1 _ _ Hs).
      pose proof (length_rest_skipws p).
      lia.
    + exists q. split; [|exact X].
      rewrite L, <- app_assoc. reflexivity.
Qed.

Lemma SepBy1BasicType_eq :
  forall sep e p,
    SepBy1BasicType advance_cursor sep e p =
    match ReadBasicType (skipws p) with
    | (Some v, q) => loop (S (List.length (rest q))) sep e [v] q
    | (None, q) =>
        (None, PushError "Not starting with the value of requested type." q)
    end.
Proof. reflexivity. Qed.

(** A separated list followed by its closing symbol is read exactly when
    the input has the form of an item list and a closing. *)
Lemma SepBy1BasicType_closed :
  forall sep e p (vs : list T) p',
    Forward ReadBasicType -> sep <> e ->
    ((exists q,
        SepBy1BasicType advance_cursor sep e p = (Some vs, q) /\
        Expect e q = (Some tt, p'))
     <->
     (exists p2, ItemList sep e p vs p2 /\ Closing sep e p2 p')).
Proof.
  intros sep e p vs p' F Ne. rewrite SepBy1BasicType_eq. split.
  - intros (q & L & X).
    destruct (ReadBasicType (skipws p)) as [[v|] q0] eqn:R; [|discriminate L].
    destruct (SepBy1BasicType_loop_sound _ _ _ _ _ _ _ _ L X)
      as (vs' & p2 & E & Mi & Cl).
    exists p2. split; [|exact Cl].
    exists (skipws p), v, q0, vs'. repeat split.
    + apply Blank_iff. reflexivity.
    + exact R.
    + exact Mi.
    + exact E.
  - intros (p2 & (p1 & v & q0 & vs' & Bl & Li & Mi & E) & Cl).
    apply Blank_iff in Bl. subst p1 vs. unfold Literal in Li. rewrite Li.
    apply (SepBy1BasicType_loop_complete sep e q0 vs' p2 F Ne Mi p'
             (S (List.length (rest q0))) [v] Cl).
    lia.
Qed.

Lemma SepBy1BasicType_skipws :
  forall sep e p,
    SepBy1BasicType advance_cursor sep e (skipws p) =
    SepBy1BasicType advance_cursor (T := T) sep e p.
Proof.
  intros sep e p. rewrite !SepBy1BasicType_eq, skipws_idem. reflexivity.
Qed.

Lemma ParseBasicTypeTuple_eq :
  forall N p,
    ParseBasicTypeTuple advance_cursor (T := T) N p =
    match Expect "(" p with
    | (Some _, p1) =>
        match SepBy1BasicType advance_cursor "," ")" p1 with
        | (Some values, q) =>
            match Expect ")" q with
            | (Some _, p3) =>
                if Nat.eqb (List.length values) N then (Some values, p3)
                else (None,
                      PushError "The number of tuple elements is wrong." p3)
            | (None, p3) => (None, p3)
            end
        | (None, q) => (None, q)
        end
    | (None, p1) => (None, p1)
    end.
Proof. reflexivity. Qed.

Lemma comma_not_paren : ","%char <> ")"%char.
Proof. discriminate. Qed.

Lemma comma_not_bracket : ","%char <> "]"%char.
Proof. discriminate. Qed.

(** The tuple decoder succeeds exactly on the tuple form. *)
Lemma ParseBasicTypeTuple_TupleForm :
  forall N p (vs : list T) p',
    Forward ReadBasicType ->
    (ParseBasicTypeTuple advance_cursor N p = (Some vs, p') <->
     TupleForm advance_cursor N p vs p').
Proof.
  intros N p vs p' F. rewrite ParseBasicTypeTuple_eq. split.
  - intros E.
    destruct (Expect "(" p) as [[[]|] p1] eqn:X1; [|discriminate E].
    destruct (SepBy1BasicType advance_cursor "," ")" p1) as [[vs0|] q] eqn:S1;
      [|discriminate E].
    destruct (Expect ")" q) as [[[]|] p3] eqn:X2; [|discriminate E].
    destruct (Nat.eqb (List.length vs0) N) eqn:Len; [|discriminate E].
    inversion E. subst vs0 p3.
    split; [apply Nat.eqb_eq; exact Len|].
    exists p1. apply Expect_Token in X1.
    destruct (proj1 (SepBy1BasicType_closed "," ")" p1 vs p' F comma_not_paren))
      as (p2 & Il & Cl).
    + exists q. split; assumption.
    + exists p2. repeat split; assumption.
  - intros (Len & p1 & p2 & Tk & Il & Cl).
    apply Expect_Token in Tk. rewrite Tk.
    destruct (proj2 (SepBy1BasicType_closed "," ")" p1 vs p' F comma_not_paren))
      as (q & S1 & X2).
    + exists p2. split; assumption.
    + rewrite S1, X2. apply Nat.eqb_eq in Len. rewrite Len. reflexivity.
Qed.

(** An input that is a tuple of [M] items is rejected at every other
    arity. *)
Lemma ParseBasicTypeTuple_wrong_arity :
  forall N M p (vs : list T) p',
    Forward ReadBasicType ->
    M <> N ->
    TupleForm advance_cursor M p vs p' ->
    fst (ParseBasicTypeTuple advance_cursor (T := T) N p) = None.
Proof.
  intros N M p vs p' F Ne Tf.
  pose proof Tf as (Len & _).
  apply (ParseBasicTypeTuple_TupleForm M p vs p' F) in Tf.
  rewrite ParseBasicTypeTuple_eq in Tf. rewrite ParseBasicTypeTuple_eq.
  destruct (Expect "(" p) as [[[]|] p1]; [|discriminate Tf].
  destruct (SepBy1BasicType advance_cursor "," ")" p1) as [[vs0|] q];
    [|discriminate Tf].
  destruct (Expect ")" q) as [[[]|] p3]; [|discriminate Tf].
  destruct (Nat.eqb (List.length vs0) M) eqn:LenM; [|discriminate Tf].
  inversion Tf. subst vs0 p3.
  destruct (Nat.eqb (List.length vs) N) eqn:LenN; [|reflexivity].
  apply Nat.eqb_eq in LenN. congruence.
Qed.

Lemma ParseBasicTypeArray_eq :
  forall p,
    ParseBasicTypeArray advance_cursor (T := T) p =
    match Expect "[" p with
    | (Some _, p1) =>
        if NextIs "]" (skipws p1)
        then (Some [], consume1 "]" (skipws p1))
        else
          match SepBy1BasicType advance_cursor "," "]" p1 with
          | (Some values, q) =>
              match Expect "]" q with
              | (Some _, p3) => (Some values, p3)
              | (None, p3) => (None, p3)
              end
          | (None, q) => (None, q)
          end
    | (None, p1) => (None, p1)
    end.
Proof.
  intros p. unfold ParseBasicTypeArray. unfold bind at 1.
  destruct (Expect "[" p) as [[[]|] p1]; [|reflexivity].
  unfold bind at 1. unfold SkipWhitespace at 1.
  destruct (NextIs "]" (skipws p1)) eqn:Hn.
  - apply NextIs_true in Hn. destruct Hn as (r & R).
    unfold bind. rewrite (Char1_cons _ _ _ R). reflexivity.
  - unfold bind. rewrite SepBy1BasicType_skipws. reflexivity.
Qed.

(** The array decoder succeeds exactly on the array form. *)
Lemma ParseBasicTypeArray_ArrayForm :
  forall p (vs : list T) p',
    Forward ReadBasicType ->
    (ParseBasicTypeArray advance_cursor p = (Some vs, p') <->
     ArrayForm advance_cursor p vs p').
Proof.
  intros p vs p' F. rewrite ParseBasicTypeArray_eq. split.
  - intros E.
    destruct (Expect "[" p) as [[[]|] p1] eqn:X1; [|discriminate E].
    apply Expect_Token in X1.
    destruct (NextIs "]" (skipws p1)) eqn:Hn.
    + inversion E. subst vs p'. left. split; [reflexivity|].
      exists p1. split; [exact X1|].
      apply Token_iff. split; [exact Hn | reflexivity].
    + destruct (SepBy1BasicType advance_cursor "," "]" p1)
        as [[vs0|] q] eqn:S1; [|discriminate E].
      destruct (Expect "]" q) as [[[]|] p3] eqn:X2; [|discriminate E].
      inversion E. subst vs0 p3. right.
      destruct (proj1 (SepBy1BasicType_closed "," "]" p1 vs p' F
                         comma_not_bracket)) as (p2 & Il & Cl).
      * exists q. split; assumption.
      * exists p1, p2. repeat split; try assumption.
        intros p1' Bl. apply Blank_iff in Bl. subst p1'.
        apply NextIs_false. exact Hn.
  - intros [(-> & p1 & T1 & T2) | (p1 & p2 & T1 & G & Il & Cl)].
    + apply Expect_Token in T1. rewrite T1.
      apply Token_iff in T2. destruct T2 as (Hn & ->). rewrite Hn.
      reflexivity.
    + apply Expect_Token in T1. rewrite T1.
      assert (Hn : NextIs "]" (skipws p1) = false).
      { apply NextIs_false. apply G. apply Blank_iff. reflexivity. }
      rewrite Hn.
      destruct (proj2 (SepBy1BasicType_closed "," "]" p1 vs p' F
                         comma_not_bracket)) as (q & S1 & X2).
      * exists p2. split; assumption.
      * rewrite S1, X2. reflexivity.
Qed.

(** ** Decoders built from a forward decoder are forward *)

Lemma Forward_ReadBasicType_optional :
  Forward ReadBasicType ->
  Forward (ReadBasicType_optional advance_cursor (T := T)).
Proof.
  intros F p o p' E. unfold ReadBasicType_optional in E.
  destruct (MaybeNone p) as [[u|] p1] eqn:Mn.
  - inversion E. subst. exact (Forward_MaybeNone _ _ _ Mn).
  - apply MaybeNone_None in Mn. subst p1. revert E.
    apply (Forward_bind _ _ ReadBasicType (fun v => ret (Some v))).
    + exact F.
    + intros v. apply Forward_ret.
Qed.

Lemma Forward_SepBy1BasicType_loop :
  Forward ReadBasicType ->
  forall fuel sep e (acc : list T), Forward (loop fuel sep e acc).
Proof.
  intros F. induction fuel as [|fuel IH]; intros sep e acc p r p' E.
  - discriminate E.
  - rewrite SepBy1BasicType_loop_eq in E.
    destruct (forward_skipws p) as (B1 & I1).
    destruct (NextIs sep (skipws p)).
    + destruct (forward_consume [sep] (skipws p)) as (B2 & I2).
      destruct (forward_skipws (consume1 sep (skipws p))) as (B3 & I3).
      cbn [consume fold_left] in B2, I2.
      destruct (NextIs e (skipws (consume1 sep (skipws p)))).
      * inversion E. subst. split; [congruence | lia].
      * destruct (ReadBasicType (skipws (consume1 sep (skipws p))))
          as [[v|] q] eqn:R; [|discriminate E].
        destruct (F _ _ _ R) as (B4 & I4).
        destruct (IH _ _ _ _ _ _ E) as (B5 & I5).
        split; [congruence | lia].
    + inversion E. subst. split; assumption.
Qed.

Lemma Forward_SepBy1BasicType :
  Forward ReadBasicType ->
  forall sep e, Forward (SepBy1BasicType advance_cursor (T := T) sep e).
Proof.
  intros F sep e p r p' E. rewrite SepBy1BasicType_eq in E.
  destruct (forward_skipws p) as (B1 & I1).
  destruct (ReadBasicType (skipws p)) as [[v|] q] eqn:R; [|discriminate E].
  destruct (F _ _ _ R) as (B2 & I2).
  destruct (Forward_SepBy1BasicType_loop F _ _ _ _ _ _ _ E) as (B3 & I3).
  split; [congruence | lia].
Qed.

Lemma Forward_ParseBasicTypeTuple :
  Forward ReadBasicType ->
  forall N, Forward (ParseBasicTypeTuple advance_cursor (T := T) N).
Proof.
  intros F N p r p' E. rewrite ParseBasicTypeTuple_eq in E.
  destruct (Expect "(" p) as [[[]|] p1] eqn:X1; [|discriminate E].
  destruct (SepBy1BasicType advance_cursor "," ")" p1) as [[vs|] q] eqn:S1;
    [|discriminate E].
  destruct (Expect ")" q) as [[[]|] p3] eqn:X2; [|discriminate E].
  destruct (Nat.eqb (List.length vs) N); [|discriminate E].
  inversion E. subst.
  destruct (Forward_Expect _ _ _ _ X1) as (B1 & I1).
  destruct (Forward_SepBy1BasicType F _ _ _ _ _ S1) as (B2 & I2).
  destruct (Forward_Expect _ _ _ _ X2) as (B3 & I3).
  split; [congruence | lia].
Qed.

Lemma Forward_ParseBasicTypeArray :
  Forward ReadBasicType ->
  Forward (ParseBasicTypeArray advance_cursor (T := T)).
Proof.
  intros F p r p' E. rewrite ParseBasicTypeArray_eq in E.
  destruct (Expect "[" p) as [[[]|] p1] eqn:X1; [|discriminate E].
  destruct (Forward_Expect _ _ _ _ X1) as (B1 & I1).
  destruct (NextIs "]" (skipws p1)).
  - inversion E. subst.
    destruct (forward_skipws p1) as (B2 & I2).
    destruct (forward_consume ["]"%char] (skipws p1)) as (B3 & I3).
    cbn [consume fold_left] in B3, I3.
    split; [congruence | lia].
  - destruct (SepBy1BasicType advance_cursor "," "]" p1) as [[vs|] q] eqn:S1;
      [|discriminate E].
    destruct (Expect "]" q) as [[[]|] p3] eqn:X2; [|discriminate E].
    inversion E. subst.
    destruct (Forward_SepBy1BasicType F _ _ _ _ _ S1) as (B2 & I2).
    destruct (Forward_Expect _ _ _ _ X2) as (B3 & I3).
    split; [congruence | lia].
Qed.
End SeparatedLists.
End LexerFacts.

(** ** The integer decoder *)

Lemma ReadBasicType_int32_Forward :
  forall advance_cursor, Forward (ReadBasicType_int32 advance_cursor).
Proof.
  intros adv p a p' E. unfold ReadBasicType_int32 in E.
  assert (G : forall q,
             (let ds := leading_digits (rest q) in
              let v := if NextIs "-" p then - decimal_value ds
                       else decimal_value ds in
              match ds with
              | [] => (None, PushError "Expected an integer literal." q)
              | _ :: _ =>
                  if (- 2 ^ 31 <=? v) && (v <=? 2 ^ 31 - 1)
                  then (Some v, consume adv ds q)
                  else (None, PushError "Integer literal out of range."
                                (consume adv ds q))
              end) = (Some a, p') ->
             binary (_sr p') = binary (_sr q) /\
             (idx (_sr q) <= idx (_sr p'))%N).
  { intros q. cbv zeta.
    destruct (leading_digits (rest q)) as [|d ds]; [discriminate|].
    match goal with |- context [if ?b then _ else _] => destruct b end;
      [|discriminate].
    intros K.
    assert (Ep : p' = consume adv (d :: ds) q) by congruence.
    rewrite Ep.
    destruct (consume_frame adv (d :: ds) q) as (B & I & _).
    rewrite B, I. split; [reflexivity | lia]. }
  unfold bind in E.
  destruct (NextIs "-" p || NextIs "+" p).
  - unfold Char1 in E.
    destruct (Stream.peek1 (_sr p)) as [c|]; [|discriminate E].
    cbn [ret] in E. apply G in E. destruct E as (B & I).
    destruct (consume1_frame adv c p) as (B1 & I1 & _).
    rewrite B, B1. split; [reflexivity | lia].
  - cbn [ret] in E. apply G in E. exact E.
Qed.

(** * The typed-value decoder *)

Lemma ReadBasicType_optional_None_witness :
  exists p',
    ReadBasicType_optional line_col_cursor
      (H := BasicType_int32 line_col_cursor) (parser_on "None, 3")
    = (Some None, p') /\
    rest p' = [","; " "; "3"]%char /\
    CurrLoc p' = (CurrLoc (parser_on "None, 3") + 4)%N /\
    err_stack p' = err_stack (parser_on "None, 3") /\
    warn_stack p' = warn_stack (parser_on "None, 3").
Proof.
  apply (ReadBasicType_optional_None line_col_cursor Z
           (BasicType_int32 line_col_cursor) (parser_on "None, 3")
           [","; " "; "3"]%char).
  vm_compute. reflexivity.
Defined.

(** C2: for every element type [T] and arity [N], [ParseBasicTypeTuple]
    succeeds exactly on the inputs of the tuple form - an opening
    parenthesis, [N] comma-separated bare values of type [T], at most one
    trailing comma, a closing parenthesis - and an input that is a tuple of
    any other number of items, [N-1] and [N+1] among them, is rejected. *)
Theorem ParseBasicTypeTuple_exact :
  forall (advance_cursor : ascii -> Cursor -> Cursor)
         (T : Type) (H : BasicType T) (N : nat),
    Forward ReadBasicType ->
    forall p : AsciiParser,
      (forall vs p',
          ParseBasicTypeTuple advance_cursor N p = (Some vs, p') <->
          TupleForm advance_cursor N p vs p') /\
      (forall M vs p',
          M <> N ->
          TupleForm advance_cursor M p vs p' ->
          fst (ParseBasicTypeTuple advance_cursor (T := T) N p) = None).
Proof.
  intros adv T H N F p. split.
  - intros vs p'. apply ParseBasicTypeTuple_TupleForm. exact F.
  - intros M vs p' Ne Tf.
    exact (ParseBasicTypeTuple_wrong_arity adv N M p vs p' F Ne Tf).
Qed.

Lemma ParseBasicTypeTuple_exact_witness :
  TupleForm line_col_cursor (H := BasicType_int32 line_col_cursor) 3
    (parser_on "(1, 2, 3,)") [1; 2; 3]%Z
    (snd (ParseBasicTypeTuple line_col_cursor
            (H := BasicType_int32 line_col_cursor) 3
            (parser_on "(1, 2, 3,)"))) /\
  fst (ParseBasicTypeTuple line_col_cursor
         (H := BasicType_int32 line_col_cursor) 3 (parser_on "(1, 2)"))
  = None /\
  fst (ParseBasicTypeTuple line_col_cursor
         (H := BasicType_int32 line_col_cursor) 3 (parser_on "(1, 2, 3, 4)"))
  = None.
Proof.
  pose (Th := fun N =>
          ParseBasicTypeTuple_exact line_col_cursor Z
            (BasicType_int32 line_col_cursor) N
            (ReadBasicType_int32_Forward line_col_cursor)).
  split; [|split].
  - apply (proj1 (Th 3%nat (parser_on "(1, 2, 3,)"))).
    vm_compute. reflexivity.
  - apply (proj2 (Th 3%nat (parser_on "(1, 2)")) 2%nat [1; 2]%Z
             (snd (ParseBasicTypeTuple line_col_cursor
                     (H := BasicType_int32 line_col_cursor) 2
                     (parser_on "(1, 2)")))).
    + discriminate.
    + apply (proj1 (Th 2%nat (parser_on "(1, 2)"))).
      vm_compute. reflexivity.
  - apply (proj2 (Th 3%nat (parser_on "(1, 2, 3, 4)")) 4%nat [1; 2; 3; 4]%Z
             (snd (ParseBasicTypeTuple line_col_cursor
                     (H := BasicType_int32 line_col_cursor) 4
                     (parser_on "(1, 2, 3, 4)")))).
    + discriminate.
    + apply (proj1 (Th 4%nat (parser_on "(1, 2, 3, 4)"))).
      vm_compute. reflexivity.
Defined.

(** Two trailing commas are one too many. *)
Example ParseBasicTypeTuple_two_trailing_commas :
  fst (ParseBasicTypeTuple line_col_cursor
         (H := BasicType_int32 line_col_cursor) 3 (parser_on "(1, 2, 3,,)"))
  = None.
Proof. vm_compute. reflexivity. Qed.

(** C3: for every element type [T], [ParseBasicTypeArray] reads the empty
    array literal as the empty vector, accepts one trailing comma in front
    of the closing bracket, and succeeds exactly on the array form; as
    integer arrays, the texts [1, 2, 3,] and [1, 2, 3] in brackets both
    decode to the three elements 1, 2, 3. *)
Theorem ParseBasicTypeArray_accepts :
  (forall (advance_cursor : ascii -> Cursor -> Cursor)
          (T : Type) (H : BasicType T) (p : AsciiParser) (r : list ascii),
      rest p = "["%char :: "]"%char :: r ->
      ParseBasicTypeArray advance_cursor (T := T) p
      = (Some [], consume advance_cursor ["["; "]"]%char p)) /\
  (forall (advance_cursor : ascii -> Cursor -> Cursor)
          (T : Type) (H : BasicType T),
      Forward ReadBasicType ->
      forall p : AsciiParser,
        (forall vs p1 p2 p3 p',
            Token advance_cursor "[" p p1 ->
            (forall p1', Blank advance_cursor p1 p1' -> ~ StartsWith "]" p1') ->
            ItemList advance_cursor "," "]" p1 vs p2 ->
            Token advance_cursor "," p2 p3 ->
            Token advance_cursor "]" p3 p' ->
            ParseBasicTypeArray advance_cursor p = (Some vs, p')) /\
        (forall vs p',
            ParseBasicTypeArray advance_cursor p = (Some vs, p') <->
            ArrayForm advance_cursor p vs p')) /\
  (forall advance_cursor : ascii -> Cursor -> Cursor,
      fst (ParseBasicTypeArray advance_cursor
             (H := BasicType_int32 advance_cursor) (parser_on "[1, 2, 3,]"))
      = Some [1; 2; 3]%Z /\
      fst (ParseBasicTypeArray advance_cursor
             (H := BasicType_int32 advance_cursor) (parser_on "[1, 2, 3]"))
      = Some [1; 2; 3]%Z).
Proof.
  split; [|split].
  - intros adv T H p r E.
    rewrite ParseBasicTypeArray_eq.
    assert (T1 : Token adv "[" p (consume adv ["["]%char p)).
    { exists [], ("]"%char :: r). repeat split; [constructor | exact E]. }
    pose proof T1 as X1. apply Expect_Token in X1. rewrite X1.
    assert (T2 : Token adv "]" (consume adv ["["]%char p)
                   (consume adv ["["; "]"]%char p)).
    { exists [], r. repeat split; [constructor|].
      apply rest_consume. exact E. }
    apply Token_iff in T2. destruct T2 as (Hn & K).
    rewrite Hn, <- K. reflexivity.
  - intros adv T H F p. split.
    + intros vs p1 p2 p3 p' T1 G Il T2 T3.
      apply ParseBasicTypeArray_ArrayForm; [exact F|].
      right. exists p1, p2. repeat split; try assumption.
      right. exists p3. split; assumption.
    + intros vs p'. apply ParseBasicTypeArray_ArrayForm. exact F.
  - intros adv. split; vm_compute; reflexivity.
Qed.

Lemma ParseBasicTypeArray_accepts_witness :
  ArrayForm line_col_cursor (H := BasicType_int32 line_col_cursor)
    (parser_on "[1, 2, 3,]") [1; 2; 3]%Z
    (snd (ParseBasicTypeArray line_col_cursor
            (H := BasicType_int32 line_col_cursor) (parser_on "[1, 2, 3,]"))) /\
  ParseBasicTypeArray line_col_cursor
    (H := BasicType_int32 line_col_cursor) (parser_on "[] ")
  = (Some [], consume line_col_cursor ["["; "]"]%char (parser_on "[] ")).
Proof.
  split.
  - apply (proj2 (proj1 (proj2 ParseBasicTypeArray_accepts) line_col_cursor Z
                    (BasicType_int32 line_col_cursor)
                    (ReadBasicType_int32_Forward line_col_cursor)
                    (parser_on "[1, 2, 3,]"))).
    vm_compute. reflexivity.
  - apply (proj1 ParseBasicTypeArray_accepts line_col_cursor Z
             (BasicType_int32 line_col_cursor) (parser_on "[] ")
             [" "]%char).
    vm_compute. reflexivity.
Defined.

(** * The checkpoint stack *)

Lemma to_uint64_to_int64 :
  forall n : N, Z.of_N n < 2 ^ 63 -> to_uint64 (to_int64 (Z.of_N n)) = n.
Proof.
  intros n Hn. unfold to_uint64, to_int64.
  rewrite (Z.mod_small (Z.of_N n + 2 ^ 63)) by lia.
  replace (Z.of_N n + 2 ^ 63 - 2 ^ 63) with (Z.of_N n) by lia.
  rewrite Z.mod_small by lia. apply N2Z.id.
Qed.

Lemma StreamReader_eta :
  forall sr, mkStreamReader (binary sr) (idx sr) = sr.
Proof. intros [b i]. reflexivity. Qed.

Lemma snd_observe :
  forall (A : Type) (f : A -> Observed) (r : option A * AsciiParser),
    snd (observe f r) = snd r.
Proof. intros A f [[a|] p]; reflexivity. Qed.

Lemma fst_observe :
  forall (A : Type) (f : A -> Observed) (r r' : option A * AsciiParser),
    fst r = fst r' -> fst (observe f r) = fst (observe f r').
Proof.
  intros A f [[a|] p] [[a'|] p']; simpl; intros E;
    try discriminate E; try reflexivity.
  inversion E. reflexivity.
Qed.

Lemma Framed_ret : forall (A : Type) (a : A), Framed (ret a).
Proof. intros A a p Hp. repeat split; apply Hp. Qed.

Lemma Framed_bind :
  forall (A B : Type) (m : M A) (f : A -> M B),
    Framed m -> (forall a, Framed (f a)) -> Framed (bind m f).
Proof.
  intros A B m f Fm Ff p Hp. unfold bind.
  destruct (Fm p Hp) as (O1 & B1 & S1).
  destruct (m p) as [[a|] p1]; simpl in *.
  - destruct (Ff a p1 O1) as (O2 & B2 & S2).
    rewrite B2, S2. split; [exact O2 | split; assumption].
  - split; [exact O1 | split; assumption].
Qed.

Lemma StreamOnly_ret : forall (A : Type) (a : A), StreamOnly (ret a).
Proof. intros A a p q E. split; [reflexivity | exact E]. Qed.

Lemma StreamOnly_bind :
  forall (A B : Type) (m : M A) (f : A -> M B),
    StreamOnly m -> (forall a, StreamOnly (f a)) -> StreamOnly (bind m f).
Proof.
  intros A B m f Sm Sf p q E. unfold bind.
  destruct (Sm p q E) as (E1 & E2).
  destruct (m p) as [[a|] p1], (m q) as [[a'|] q1]; simpl in *;
    try discriminate E1.
  - inversion E1. subst a'. apply Sf. exact E2.
  - split; [reflexivity | exact E2].
Qed.

Section CheckpointFacts.
Variable advance_cursor : ascii -> Cursor -> Cursor.

Local Abbreviation consume1 := (consume1 advance_cursor).
Local Abbreviation consume := (consume advance_cursor).
Local Abbreviation skip_whitespace := (skip_whitespace advance_cursor).
Local Abbreviation Char1 := (Char1 advance_cursor).
Local Abbreviation CharN := (CharN advance_cursor).
Local Abbreviation SkipWhitespace := (SkipWhitespace advance_cursor).
Local Abbreviation Expect := (Expect advance_cursor).
Local Abbreviation MaybeNone := (MaybeNone advance_cursor).
Local Abbreviation run_op := (run_op advance_cursor).
Local Abbreviation run := (run advance_cursor).
Local Abbreviation skipws p := (skip_whitespace (rest p) p).

Lemma length_rest :
  forall p,
    List.length (rest p) =
    (List.length (binary (_sr p)) - N.to_nat (idx (_sr p)))%nat.
Proof. intros p. unfold rest, Stream.rest. apply length_skipn. Qed.

Lemma consume_ok :
  forall cs r p,
    rest p = cs ++ r -> stream_ok p ->
    stream_ok (consume cs p) /\
    binary (_sr (consume cs p)) = binary (_sr p) /\
    parse_stack (consume cs p) = parse_stack p.
Proof.
  intros cs r p E (I & S).
  destruct (consume_frame advance_cursor cs p) as (B & I' & _ & _ & P).
  pose proof (length_rest p) as L. rewrite E, length_app in L.
  unfold stream_ok, Stream.size in *. rewrite B, I'.
  repeat split; try assumption. lia.
Qed.

Lemma Framed_Char1 : Framed Char1.
Proof.
  intros p Hp. unfold Char1. rewrite peek1_rest.
  destruct (rest p) as [|c r] eqn:E; simpl.
  - repeat split; apply Hp.
  - exact (consume_ok [c] r p E Hp).
Qed.

Lemma Framed_CharN : forall n, Framed (CharN n).
Proof.
  induction n as [|n IH].
  - apply Framed_ret.
  - cbn [CharN]. apply Framed_bind; [apply Framed_Char1|].
    intros c. apply Framed_bind; [exact IH|].
    intros cs. apply Framed_ret.
Qed.

Lemma Framed_SeekTo : forall pos, Framed (SeekTo pos).
Proof.
  intros pos p Hp. unfold SeekTo, Stream.seek_set.
  destruct (pos <=? Stream.size (_sr p))%N eqn:Le; simpl.
  - apply N.leb_le in Le. destruct Hp as (_ & S).
    unfold stream_ok. simpl. repeat split; assumption.
  - repeat split; apply Hp.
Qed.

Lemma Framed_Rewind : forall offset, Framed (Rewind offset).
Proof.
  intros offset p Hp. unfold Rewind.
  destruct (offset <=? CurrLoc p)%N.
  - apply Framed_SeekTo. exact Hp.
  - repeat split; apply Hp.
Qed.

Lemma Framed_SkipWhitespace : Framed SkipWhitespace.
Proof.
  intros p Hp. unfold SkipWhitespace. simpl.
  destruct (skipws_spec advance_cursor p) as (ws & r & E & _ & _ & K & _).
  rewrite K. exact (consume_ok ws r p E Hp).
Qed.

Lemma Framed_Expect : forall c, Framed (Expect c).
Proof.
  intros c p Hp. rewrite Expect_eq.
  destruct (Framed_SkipWhitespace p Hp) as (O1 & B1 & S1). simpl in O1, B1, S1.
  destruct (NextIs c (skip_whitespace (rest p) p)) eqn:Hn; simpl.
  - apply NextIs_true in Hn. destruct Hn as (r & R).
    destruct (consume_ok [c] r _ R O1) as (O2 & B2 & S2).
    simpl in O2, B2, S2.
    rewrite <- B1, <- S1. split; [exact O2 | split; assumption].
  - split; [exact O1 | split; assumption].
Qed.

Lemma Framed_MaybeNone : Framed MaybeNone.
Proof.
  intros p Hp. unfold MaybeNone, LookCharN.
  destruct (Nat.eqb (List.length (firstn 4 (rest p))) 4).
  - destruct (String.eqb (string_of_list_ascii (firstn 4 (rest p))) "None").
    + apply (Framed_bind _ _ (CharN 4) (fun _ => ret tt)).
      * apply Framed_CharN.
      * intros a. apply Framed_ret.
      * exact Hp.
    + repeat split; apply Hp.
  - repeat split; apply Hp.
Qed.

Lemma run_op_framed :
  forall op p,
    stream_ok p ->
    stream_ok (snd (run_op op p)) /\
    binary (_sr (snd (run_op op p))) = binary (_sr p) /\
    parse_stack (snd (run_op op p)) = parse_stack p.
Proof.
  intros op p Hp. destruct op;
    unfold run_op; try rewrite snd_observe.
  - unfold LookChar1. destruct (Stream.peek1 (_sr p)); repeat split; apply Hp.
  - unfold LookCharN.
    destruct (Nat.eqb (List.length (firstn n (rest p))) n);
      repeat split; apply Hp.
  - apply Framed_Char1. exact Hp.
  - apply Framed_CharN. exact Hp.
  - apply Framed_Rewind. exact Hp.
  - apply Framed_SeekTo. exact Hp.
  - apply Framed_SkipWhitespace. exact Hp.
  - apply Framed_Expect. exact Hp.
  - apply Framed_MaybeNone. exact Hp.
  - repeat split; apply Hp.
  - unfold PopError. destruct (negb (StdStack.empty (err_stack p)));
      repeat split; apply Hp.
Qed.

Lemma StreamOnly_LookChar1 : StreamOnly LookChar1.
Proof.
  intros p q E. unfold LookChar1. rewrite E.
  destruct (Stream.peek1 (_sr q)); split; try reflexivity; exact E.
Qed.

Lemma StreamOnly_LookCharN : forall n, StreamOnly (LookCharN n).
Proof.
  intros n p q E. unfold LookCharN, rest. rewrite E.
  destruct (Nat.eqb (List.length (firstn n (Stream.rest (_sr q)))) n);
    split; try reflexivity; exact E.
Qed.

Lemma StreamOnly_Char1 : StreamOnly Char1.
Proof.
  intros p q E. unfold Char1. rewrite E.
  destruct (Stream.peek1 (_sr q)); split; try reflexivity; try exact E.
  simpl. rewrite E. reflexivity.
Qed.

Lemma StreamOnly_CharN : forall n, StreamOnly (CharN n).
Proof.
  induction n as [|n IH].
  - apply StreamOnly_ret.
  - cbn [CharN]. apply StreamOnly_bind; [apply StreamOnly_Char1|].
    intros c. apply StreamOnly_bind; [exact IH|].
    intros cs. apply StreamOnly_ret.
Qed.

Lemma StreamOnly_SeekTo : forall pos, StreamOnly (SeekTo pos).
Proof.
  intros pos p q E. unfold SeekTo. rewrite E.
  destruct (Stream.seek_set pos (_sr q)); split; try reflexivity; exact E.
Qed.

Lemma StreamOnly_Rewind : forall offset, StreamOnly (Rewind offset).
Proof.
  intros offset p q E. unfold Rewind, CurrLoc. rewrite E.
  destruct (offset <=? Stream.tell (_sr q))%N.
  - apply StreamOnly_SeekTo. exact E.
  - split; [reflexivity | exact E].
Qed.

Lemma skip_whitespace_sr :
  forall cs p q,
    _sr p = _sr q ->
    _sr (skip_whitespace cs p) = _sr (skip_whitespace cs q).
Proof.
  induction cs as [|c cs IH]; intros p q E.
  - exact E.
  - cbn [skip_whitespace]. destruct (is_whitespace c); [|exact E].
    apply IH. simpl. rewrite E. reflexivity.
Qed.

Lemma StreamOnly_SkipWhitespace : StreamOnly SkipWhitespace.
Proof.
  intros p q E. unfold SkipWhitespace. split; [reflexivity|]. simpl.
  unfold rest. rewrite E. apply skip_whitespace_sr. exact E.
Qed.

Lemma StreamOnly_Expect : forall c, StreamOnly (Expect c).
Proof.
  intros c. unfold Expect.
  apply StreamOnly_bind; [apply StreamOnly_SkipWhitespace|].
  intros _ p q E. unfold NextIs. rewrite E.
  destruct (Stream.peek1 (_sr q)) as [c'|].
  - destruct (Ascii.eqb c' c).
    + apply (StreamOnly_bind _ _ Char1 (fun _ => ret tt)).
      * apply StreamOnly_Char1.
      * intros a. apply StreamOnly_ret.
      * exact E.
    + split; [reflexivity | exact E].
  - split; [reflexivity | exact E].
Qed.

Lemma StreamOnly_MaybeNone : StreamOnly MaybeNone.
Proof.
  intros p q E. unfold MaybeNone, LookCharN, rest. rewrite E.
  destruct (Nat.eqb (List.length (firstn 4 (Stream.rest (_sr q)))) 4).
  - destruct (String.eqb
                (string_of_list_ascii (firstn 4 (Stream.rest (_sr q))))
                "None").
    + apply (StreamOnly_bind _ _ (CharN 4) (fun _ => ret tt)).
      * apply StreamOnly_CharN.
      * intros a. apply StreamOnly_ret.
      * exact E.
    + split; [reflexivity | exact E].
  - split; [reflexivity | exact E].
Qed.

Lemma run_op_stream :
  forall op p q,
    _sr p = _sr q ->
    fst (run_op op p) = fst (run_op op q) /\
    _sr (snd (run_op op p)) = _sr (snd (run_op op q)).
Proof.
  intros op p q E.
  assert (G : forall (A : Type) (f : A -> Observed) (m : M A),
             StreamOnly m ->
             fst (observe f (m p)) = fst (observe f (m q)) /\
             _sr (snd (observe f (m p))) = _sr (snd (observe f (m q)))).
  { intros A f m Sm. destruct (Sm p q E) as (E1 & E2).
    rewrite !snd_observe. split; [apply fst_observe; exact E1 | exact E2]. }
  destruct op; unfold run_op.
  - apply G, StreamOnly_LookChar1.
  - apply G, StreamOnly_LookCharN.
  - apply G, StreamOnly_Char1.
  - apply G, StreamOnly_CharN.
  - apply G, StreamOnly_Rewind.
  - apply G, StreamOnly_SeekTo.
  - apply G, StreamOnly_SkipWhitespace.
  - apply G, StreamOnly_Expect.
  - apply G, StreamOnly_MaybeNone.
  - split; [reflexivity | exact E].
  - split; [reflexivity|]. simpl. unfold PopError.
    destruct (negb (StdStack.empty (err_stack p))),
             (negb (StdStack.empty (err_stack q))); exact E.
Qed.

(** Restoring from any state that still has the bytes and the checkpoint
    stack of the state behind [PushParserState] brings the stream back. *)
Lemma RestoreParserState_saved :
  forall p moved,
    stream_ok p ->
    binary (_sr moved) = binary (_sr p) ->
    parse_stack moved = parse_stack (snd (PushParserState p)) ->
    exists state p3 restored,
      PopParserState moved = (Some state, p3) /\
      to_uint64 (loc state) = CurrLoc p /\
      SeekTo (to_uint64 (loc state)) p3 = (Some tt, restored) /\
      RestoreParserState moved = (Some tt, restored) /\
      _sr restored = _sr p /\
      parse_stack restored = parse_stack p.
Proof.
  intros p moved (I & S) B P. simpl in P.
  assert (U : to_uint64 (to_int64 (Z.of_N (CurrLoc p))) = CurrLoc p).
  { apply to_uint64_to_int64. unfold CurrLoc, Stream.tell.
    unfold Stream.size in *. lia. }
  assert (K : SeekTo (CurrLoc p) (set_parse_stack (parse_stack p) moved)
              = (Some tt,
                 set_sr (mkStreamReader (binary (_sr moved)) (CurrLoc p))
                   (set_parse_stack (parse_stack p) moved))).
  { unfold SeekTo, Stream.seek_set. simpl.
    assert (Le : (CurrLoc p <=? Stream.size (_sr moved))%N = true).
    { apply N.leb_le. unfold Stream.size in *. rewrite B. exact I. }
    rewrite Le. reflexivity. }
  exists (mkParseState (to_int64 (Z.of_N (CurrLoc p)))),
         (set_parse_stack (parse_stack p) moved),
         (set_sr (mkStreamReader (binary (_sr moved)) (CurrLoc p))
            (set_parse_stack (parse_stack p) moved)).
  assert (Pp : PopParserState moved
               = (Some (mkParseState (to_int64 (Z.of_N (CurrLoc p)))),
                  set_parse_stack (parse_stack p) moved)).
  { unfold PopParserState. rewrite P. reflexivity. }
  split; [exact Pp|]. split; [exact U|].
  split; [simpl loc; rewrite U; exact K|].
  split.
  - unfold RestoreParserState, bind. rewrite Pp. simpl loc. rewrite U.
    exact K.
  - split; [|reflexivity]. simpl. rewrite B. apply StreamReader_eta.
Qed.

Lemma run_Step :
  forall op k p,
    run (Step op k) p =
    (fst (run_op op p) :: fst (run k (snd (run_op op p))),
     snd (run k (snd (run_op op p)))).
Proof.
  intros op k p. cbn [run].
  destruct (run_op op p) as [o p1]. simpl.
  destruct (run k p1) as [os p2]. reflexivity.
Qed.

Lemma run_Speculate :
  forall body k p,
    let moved := snd (run body (snd (PushParserState p))) in
    let back := observe (fun _ : unit => ObsOk) (RestoreParserState moved) in
    run (Speculate body k) p =
    (fst (run body (snd (PushParserState p)))
       ++ fst back :: fst (run k (snd back)),
     snd (run k (snd back))).
Proof.
  intros body k p moved back. subst moved back. cbn [run].
  destruct (run body (snd (PushParserState p))) as [os1 p2]. simpl.
  destruct (observe (fun _ : unit => ObsOk) (RestoreParserState p2))
    as [o p3]. simpl.
  destruct (run k p3) as [os2 p4]. reflexivity.
Qed.

Lemma stream_ok_sr :
  forall p q, _sr p = _sr q -> stream_ok q -> stream_ok p.
Proof. intros p q E Hq. unfold stream_ok. rewrite E. exact Hq. Qed.

Lemma run_framed :
  forall s p,
    stream_ok p ->
    stream_ok (snd (run s p)) /\
    binary (_sr (snd (run s p))) = binary (_sr p) /\
    parse_stack (snd (run s p)) = parse_stack p.
Proof.
  induction s as [|op k IHk|body IHb k IHk]; intros p Hp.
  - split; [exact Hp | split; reflexivity].
  - rewrite run_Step. cbn [fst snd].
    destruct (run_op_framed op p Hp) as (O1 & B1 & S1).
    destruct (IHk _ O1) as (O2 & B2 & S2).
    rewrite B2, S2. split; [exact O2 | split; assumption].
  - rewrite run_Speculate. cbv zeta.
    assert (Hs : stream_ok (snd (PushParserState p))) by exact Hp.
    destruct (IHb _ Hs) as (O1 & B1 & S1).
    destruct (RestoreParserState_saved p _ Hp B1 S1)
      as (st & p3 & restored & _ & _ & _ & R & Rs & Rp).
    rewrite R. cbn [observe fst snd].
    assert (Hr : stream_ok restored) by exact (stream_ok_sr _ _ Rs Hp).
    destruct (IHk _ Hr) as (O2 & B2 & S2).
    rewrite B2, S2, Rs, Rp. split; [exact O2 | split; reflexivity].
Qed.

Lemma run_stream :
  forall s p q,
    stream_ok p -> stream_ok q -> _sr p = _sr q ->
    fst (run s p) = fst (run s q) /\
    _sr (snd (run s p)) = _sr (snd (run s q)).
Proof.
  induction s as [|op k IHk|body IHb k IHk]; intros p q Hp Hq E.
  - split; [reflexivity | exact E].
  - rewrite !run_Step. cbn [fst snd].
    destruct (run_op_stream op p q E) as (E1 & E2).
    destruct (run_op_framed op p Hp) as (Op & _).
    destruct (run_op_framed op q Hq) as (Oq & _).
    destruct (IHk _ _ Op Oq E2) as (E3 & E4).
    rewrite E1, E3. split; [reflexivity | exact E4].
  - rewrite !run_Speculate. cbv zeta.
    assert (Hsp : stream_ok (snd (PushParserState p))) by exact Hp.
    assert (Hsq : stream_ok (snd (PushParserState q))) by exact Hq.
    destruct (IHb _ _ Hsp Hsq E) as (E1 & _).
    destruct (run_framed body _ Hsp) as (_ & Bp & Sp).
    destruct (run_framed body _ Hsq) as (_ & Bq & Sq).
    destruct (RestoreParserState_saved p _ Hp Bp Sp)
      as (sp & p3 & rp & _ & _ & _ & Rp & Rsp & _).
    destruct (RestoreParserState_saved q _ Hq Bq Sq)
      as (sq & q3 & rq & _ & _ & _ & Rq & Rsq & _).
    rewrite Rp, Rq. cbn [observe fst snd].
    assert (Er : _sr rp = _sr rq) by congruence.
    destruct (IHk rp rq (stream_ok_sr _ _ Rsp Hp) (stream_ok_sr _ _ Rsq Hq) Er)
      as (E3 & E4).
    rewrite E1, E3. split; [reflexivity | exact E4].
Qed.
End CheckpointFacts.

(** C4: for every well-formed stream state, saving a checkpoint with
    [PushParserState], running any script of lexer calls (speculative
    sub-parses with their own checkpoints included), and then restoring -
    [PopParserState] followed by [SeekTo] the saved offset - succeeds and
    puts the stream back where it was saved; every script of reads run from
    there sees what it would have seen from the state at save time. *)
Theorem checkpoint_restore_roundtrip :
  forall (advance_cursor : ascii -> Cursor -> Cursor)
         (body reads : Script) (p : AsciiParser),
    stream_ok p ->
    exists state popped restored,
      PopParserState
        (snd (run advance_cursor body (snd (PushParserState p))))
      = (Some state, popped) /\
      to_uint64 (loc state) = CurrLoc p /\
      SeekTo (to_uint64 (loc state)) popped = (Some tt, restored) /\
      _sr restored = _sr p /\
      parse_stack restored = parse_stack p /\
      fst (run advance_cursor reads restored)
      = fst (run advance_cursor reads p).
Proof.
  intros adv body reads p Hp.
  assert (Hs : stream_ok (snd (PushParserState p))) by exact Hp.
  destruct (run_framed adv body _ Hs) as (_ & B & S).
  destruct (RestoreParserState_saved p _ Hp B S)
    as (st & p3 & restored & Pp & U & K & _ & Rs & Rp).
  exists st, p3, restored.
  repeat (split; [assumption|]).
  apply (run_stream adv reads restored p (stream_ok_sr _ _ Rs Hp) Hp Rs).
Qed.

Lemma checkpoint_restore_roundtrip_witness :
  exists state popped restored,
    PopParserState
      (snd (run line_col_cursor
              (Step OpChar1
                 (Step (OpCharN 3)
                    (Speculate (Step OpSkipWhitespace (Step OpChar1 Done))
                       (Step (OpExpect ",") (Step (OpSeekTo 0) Done)))))
              (snd (PushParserState (parser_on "(1, 2, 3)")))))
    = (Some state, popped) /\
    to_uint64 (loc state) = CurrLoc (parser_on "(1, 2, 3)") /\
    SeekTo (to_uint64 (loc state)) popped = (Some tt, restored) /\
    _sr restored = _sr (parser_on "(1, 2, 3)") /\
    parse_stack restored = parse_stack (parser_on "(1, 2, 3)") /\
    fst (run line_col_cursor (Step (OpCharN 4) (Step OpLookChar1 Done))
           restored)
    = fst (run line_col_cursor (Step (OpCharN 4) (Step OpLookChar1 Done))
             (parser_on "(1, 2, 3)")).
Proof.
  apply (checkpoint_restore_roundtrip line_col_cursor
           (Step OpChar1
              (Step (OpCharN 3)
                 (Speculate (Step OpSkipWhitespace (Step OpChar1 Done))
                    (Step (OpExpect ",") (Step (OpSeekTo 0) Done)))))
           (Step (OpCharN 4) (Step OpLookChar1 Done))
           (parser_on "(1, 2, 3)")).
  vm_compute. split; [discriminate | reflexivity].
Defined.

(** ** The model on the scenarios of section 8 *)

Example ParseBasicTypeArray_trailing_comma_equal :
  fst (ParseBasicTypeArray line_col_cursor
         (H := BasicType_int32 line_col_cursor) (parser_on "[1, 2, 3,]"))
  = fst (ParseBasicTypeArray line_col_cursor
           (H := BasicType_int32 line_col_cursor) (parser_on "[1, 2, 3]")).
Proof. vm_compute. reflexivity. Qed.

Example ParseBasicTypeArray_two_trailing_commas :
  fst (ParseBasicTypeArray line_col_cursor
         (H := BasicType_int32 line_col_cursor) (parser_on "[1, 2, 3,,]"))
  = None.
Proof. vm_compute. reflexivity. Qed.

Example ParseBasicTypeArray_blank_inside_empty :
  fst (ParseBasicTypeArray line_col_cursor
         (H := BasicType_int32 line_col_cursor) (parser_on "[ ]"))
  = Some [].
Proof. vm_compute. reflexivity. Qed.

Example ReadBasicType_optional_value :
  fst (ReadBasicType_optional line_col_cursor
         (H := BasicType_int32 line_col_cursor) (parser_on "-12, 3"))
  = Some (Some (-12)).
Proof. vm_compute. reflexivity. Qed.

Example checkpoint_reads_after_restore :
  fst (run line_col_cursor
         (Speculate (Step (OpCharN 7) Done) (Step (OpCharN 2) Done))
         (parser_on "(1, 2, 3)"))
  = [ObsChars ["("; "1"; ","; " "; "2"; ","; " "]%char; ObsOk;
     ObsChars ["("; "1"]%char].
Proof. vm_compute. reflexivity. Qed.

Example ParseBasicTypeArray_blocked_element :
  fst (ParseBasicTypeArray line_col_cursor
         (H := BasicType_optional line_col_cursor Z
                 (BasicType_int32 line_col_cursor))
         (parser_on "[1, None, 3]"))
  = Some [Some 1; None; Some 3]%Z.
Proof. vm_compute. reflexivity. Qed.

Example ParseBasicTypeArray_of_tuples :
  fst (ParseBasicTypeArray line_col_cursor
         (H := BasicType_tuple line_col_cursor Z
                 (BasicType_int32 line_col_cursor) 2)
         (parser_on "[(1, 2), (3, 4),]"))
  = Some [[1; 2]; [3; 4]]%Z.
Proof. vm_compute. reflexivity. Qed.

(** * Further properties of the member functions defined in the header *)

(** ** Sequences of calls on the three stacks *)

Lemma set_err_stack_same : forall p, set_err_stack (err_stack p) p = p.
Proof. intros p. destruct p. reflexivity. Qed.

Lemma set_warn_stack_same : forall p, set_warn_stack (warn_stack p) p = p.
Proof. intros p. destruct p. reflexivity. Qed.

Lemma set_path_stack_same : forall p, set_path_stack (_path_stack p) p = p.
Proof. intros p. destruct p. reflexivity. Qed.

Lemma PopError_tl : forall p, PopError p = set_err_stack (tl (err_stack p)) p.
Proof.
  intros p. unfold PopError. destruct (err_stack p) as [|d s] eqn:E.
  - simpl. rewrite <- E. symmetry. apply set_err_stack_same.
  - reflexivity.
Qed.

Lemma PopWarn_tl : forall p, PopWarn p = set_warn_stack (tl (warn_stack p)) p.
Proof.
  intros p. unfold PopWarn. destruct (warn_stack p) as [|d s] eqn:E.
  - simpl. rewrite <- E. symmetry. apply set_warn_stack_same.
  - reflexivity.
Qed.

Lemma PopPath_tl : forall p, PopPath p = set_path_stack (tl (_path_stack p)) p.
Proof.
  intros p. unfold PopPath. destruct (_path_stack p) as [|d s] eqn:E.
  - simpl. rewrite <- E. symmetry. apply set_path_stack_same.
  - reflexivity.
Qed.

Lemma PopPath_PushPath : forall s p, PopPath (PushPath s p) = p.
Proof. intros s p. destruct p. reflexivity. Qed.

Lemma Cursor_eta : forall c, mkCursor (row c) (col c) = c.
Proof. intros [r c]. reflexivity. Qed.

Lemma run_stack_ops_app :
  forall ops ops' p,
    run_stack_ops (ops ++ ops') p = run_stack_ops ops' (run_stack_ops ops p).
Proof. intros ops ops' p. apply fold_left_app. Qed.

(** What one call does to each of the three stacks. *)
Lemma run_stack_op_err_stack :
  forall op p,
    err_stack (run_stack_op op p) =
    match op with
    | DoPushError msg => mkErrorDiagnositc msg (_curr_cursor p) :: err_stack p
    | DoPopError => tl (err_stack p)
    | _ => err_stack p
    end.
Proof.
  intros op p. destruct op; cbn [run_stack_op];
    try rewrite PopError_tl; try rewrite PopWarn_tl; try rewrite PopPath_tl;
    try reflexivity.
  unfold PushError. simpl. rewrite Cursor_eta. reflexivity.
Qed.

Lemma run_stack_op_warn_stack :
  forall op p,
    warn_stack (run_stack_op op p) =
    match op with
    | DoPushWarn msg => mkErrorDiagnositc msg (_curr_cursor p) :: warn_stack p
    | DoPopWarn => tl (warn_stack p)
    | _ => warn_stack p
    end.
Proof.
  intros op p. destruct op; cbn [run_stack_op];
    try rewrite PopError_tl; try rewrite PopWarn_tl; try rewrite PopPath_tl;
    try reflexivity.
  unfold PushWarn. simpl. rewrite Cursor_eta. reflexivity.
Qed.

Lemma run_stack_op_path_stack :
  forall op p,
    _path_stack (run_stack_op op p) =
    match op with
    | DoPushPath s => s :: _path_stack p
    | DoPopPath => tl (_path_stack p)
    | _ => _path_stack p
    end.
Proof.
  intros op p. destruct op; cbn [run_stack_op];
    try rewrite PopError_tl; try rewrite PopWarn_tl; try rewrite PopPath_tl;
    reflexivity.
Qed.

Lemma run_stack_op_frame :
  forall op p,
    _sr (run_stack_op op p) = _sr p /\
    _curr_cursor (run_stack_op op p) = _curr_cursor p /\
    parse_stack (run_stack_op op p) = parse_stack p /\
    _sub_layered (run_stack_op op p) = _sub_layered p /\
    _referenced (run_stack_op op p) = _referenced p /\
    _payloaded (run_stack_op op p) = _payloaded p /\
    _base_dir (run_stack_op op p) = _base_dir p.
Proof.
  intros op p. destruct op; cbn [run_stack_op];
    try rewrite PopError_tl; try rewrite PopWarn_tl; try rewrite PopPath_tl;
    repeat split.
Qed.

(** X1: no sequence of pushes and pops on the error, warning and path
    stacks moves the stream or the cursor, touches the checkpoint stack,
    the load-state flags or the base directory; in particular the parser
    stays top-level or not as it was. *)
Theorem stack_ops_frame :
  forall (ops : list StackOp) (p : AsciiParser),
    _sr (run_stack_ops ops p) = _sr p /\
    _curr_cursor (run_stack_ops ops p) = _curr_cursor p /\
    parse_stack (run_stack_ops ops p) = parse_stack p /\
    _sub_layered (run_stack_ops ops p) = _sub_layered p /\
    _referenced (run_stack_ops ops p) = _referenced p /\
    _payloaded (run_stack_ops ops p) = _payloaded p /\
    _base_dir (run_stack_ops ops p) = _base_dir p /\
    IsToplevel (run_stack_ops ops p) = IsToplevel p.
Proof.
  induction ops as [|op ops IH]; intros p.
  - repeat split.
  - change (run_stack_ops (op :: ops) p)
      with (run_stack_ops ops (run_stack_op op p)).
    destruct (IH (run_stack_op op p)) as (A1 & A2 & A3 & A4 & A5 & A6 & A7 & A8).
    destruct (run_stack_op_frame op p) as (B1 & B2 & B3 & B4 & B5 & B6 & B7).
    rewrite A1, A2, A3, A4, A5, A6, A7, A8.
    repeat (split; [assumption|]).
    unfold IsToplevel, IsReferenced, IsSubLayered, IsPayloaded.
    rewrite B4, B5, B6. reflexivity.
Qed.

Lemma run_stack_ops_cursor :
  forall ops p, _curr_cursor (run_stack_ops ops p) = _curr_cursor p.
Proof.
  induction ops as [|op ops IH]; intros p; [reflexivity|].
  change (run_stack_ops (op :: ops) p)
    with (run_stack_ops ops (run_stack_op op p)).
  rewrite IH. apply run_stack_op_frame.
Qed.

Lemma err_stack_projection :
  forall ops p q,
    err_stack p = err_stack q -> _curr_cursor p = _curr_cursor q ->
    err_stack (run_stack_ops ops p)
    = err_stack (run_stack_ops (filter is_error_op ops) q).
Proof.
  induction ops as [|op ops IH]; intros p q E C; [exact E|].
  change (run_stack_ops (op :: ops) p)
    with (run_stack_ops ops (run_stack_op op p)).
  assert (Cp : _curr_cursor (run_stack_op op p) = _curr_cursor q).
  { rewrite <- C. apply run_stack_op_frame. }
  pose proof (run_stack_op_err_stack op p) as Ep.
  destruct op; cbn [filter is_error_op];
    try (apply IH; [rewrite Ep; exact E | exact Cp]).
  - change (run_stack_ops (DoPushError msg :: filter is_error_op ops) q)
      with (run_stack_ops (filter is_error_op ops)
              (run_stack_op (DoPushError msg) q)).
    apply IH.
    + rewrite Ep, run_stack_op_err_stack, E, C. reflexivity.
    + rewrite Cp. symmetry. apply run_stack_op_frame.
  - change (run_stack_ops (DoPopError :: filter is_error_op ops) q)
      with (run_stack_ops (filter is_error_op ops)
              (run_stack_op DoPopError q)).
    apply IH.
    + rewrite Ep, run_stack_op_err_stack, E. reflexivity.
    + rewrite Cp. symmetry. apply run_stack_op_frame.
Qed.

Lemma warn_stack_projection :
  forall ops p q,
    warn_stack p = warn_stack q -> _curr_cursor p = _curr_cursor q ->
    warn_stack (run_stack_ops ops p)
    = warn_stack (run_stack_ops (filter is_warn_op ops) q).
Proof.
  induction ops as [|op ops IH]; intros p q E C; [exact E|].
  change (run_stack_ops (op :: ops) p)
    with (run_stack_ops ops (run_stack_op op p)).
  assert (Cp : _curr_cursor (run_stack_op op p) = _curr_cursor q).
  { rewrite <- C. apply run_stack_op_frame. }
  pose proof (run_stack_op_warn_stack op p) as Ep.
  destruct op; cbn [filter is_warn_op];
    try (apply IH; [rewrite Ep; exact E | exact Cp]).
  - change (run_stack_ops (DoPushWarn msg :: filter is_warn_op ops) q)
      with (run_stack_ops (filter is_warn_op ops)
              (run_stack_op (DoPushWarn msg) q)).
    apply IH.
    + rewrite Ep, run_stack_op_warn_stack, E, C. reflexivity.
    + rewrite Cp. symmetry. apply run_stack_op_frame.
  - change (run_stack_ops (DoPopWarn :: filter is_warn_op ops) q)
      with (run_stack_ops (filter is_warn_op ops)
              (run_stack_op DoPopWarn q)).
    apply IH.
    + rewrite Ep, run_stack_op_warn_stack, E. reflexivity.
    + rewrite Cp. symmetry. apply run_stack_op_frame.
Qed.

Lemma path_stack_projection :
  forall ops p q,
    _path_stack p = _path_stack q ->
    _path_stack (run_stack_ops ops p)
    = _path_stack (run_stack_ops (filter is_path_op ops) q).
Proof.
  induction ops as [|op ops IH]; intros p q E; [exact E|].
  change (run_stack_ops (op :: ops) p)
    with (run_stack_ops ops (run_stack_op op p)).
  pose proof (run_stack_op_path_stack op p) as Ep.
  destruct op; cbn [filter is_path_op];
    try (apply IH; rewrite Ep; exact E).
  - change (run_stack_ops (DoPushPath p0 :: filter is_path_op ops) q)
      with (run_stack_ops (filter is_path_op ops)
              (run_stack_op (DoPushPath p0) q)).
    apply IH. rewrite Ep, run_stack_op_path_stack, E. reflexivity.
  - change (run_stack_ops (DoPopPath :: filter is_path_op ops) q)
      with (run_stack_ops (filter is_path_op ops)
              (run_stack_op DoPopPath q)).
    apply IH. rewrite Ep, run_stack_op_path_stack, E. reflexivity.
Qed.

(** X2: the three stacks do not interfere.  After any interleaving of
    calls, the error stack is what the error calls alone would have left,
    the warning stack what the warning calls alone would have left, and
    the path stack what the path calls alone would have left: cancelling
    an error never removes a warning or a path component, and so on. *)
Theorem stack_ops_independent :
  forall (ops : list StackOp) (p : AsciiParser),
    err_stack (run_stack_ops ops p)
    = err_stack (run_stack_ops (filter is_error_op ops) p) /\
    warn_stack (run_stack_ops ops p)
    = warn_stack (run_stack_ops (filter is_warn_op ops) p) /\
    _path_stack (run_stack_ops ops p)
    = _path_stack (run_stack_ops (filter is_path_op ops) p).
Proof.
  intros ops p. split; [|split].
  - apply err_stack_projection; reflexivity.
  - apply warn_stack_projection; reflexivity.
  - apply path_stack_projection; reflexivity.
Qed.

(** X3: a sequence of calls in which every push is cancelled by a later
    pop on the same stack, properly nested, gives back the parser state it
    started from - on every stack, whatever the stacks held before. *)
Theorem Balanced_restores :
  forall ops : list StackOp,
    Balanced ops ->
    forall p : AsciiParser, run_stack_ops ops p = p.
Proof.
  intros ops B. induction B as [|a b _ IHa _ IHb|m b _ IH|m b _ IH|s b _ IH];
    intros p.
  - reflexivity.
  - rewrite run_stack_ops_app, IHa, IHb. reflexivity.
  - change (run_stack_ops (DoPushError m :: b ++ [DoPopError]) p)
      with (run_stack_ops (b ++ [DoPopError]) (PushError m p)).
    rewrite run_stack_ops_app, IH. apply PopError_PushError.
  - change (run_stack_ops (DoPushWarn m :: b ++ [DoPopWarn]) p)
      with (run_stack_ops (b ++ [DoPopWarn]) (PushWarn m p)).
    rewrite run_stack_ops_app, IH. apply PopWarn_PushWarn.
  - change (run_stack_ops (DoPushPath s :: b ++ [DoPopPath]) p)
      with (run_stack_ops (b ++ [DoPopPath]) (PushPath s p)).
    rewrite run_stack_ops_app, IH. apply PopPath_PushPath.
Qed.

Lemma Balanced_restores_witness :
  run_stack_ops
    [DoPushError "outer"; DoPushPath "/root"; DoPushWarn "inner"; DoPopWarn;
     DoPopPath; DoPopError; DoPushWarn "late"; DoPopWarn]
    (PushError "kept" (parser_on "def"))
  = PushError "kept" (parser_on "def").
Proof.
  apply (Balanced_restores
           ([DoPushError "outer"; DoPushPath "/root"; DoPushWarn "inner";
             DoPopWarn; DoPopPath; DoPopError]
            ++ [DoPushWarn "late"; DoPopWarn])).
  apply Balanced_app.
  - apply (Balanced_error "outer" [DoPushPath "/root"; DoPushWarn "inner";
                                   DoPopWarn; DoPopPath]).
    apply (Balanced_path "/root" [DoPushWarn "inner"; DoPopWarn]).
    apply (Balanced_warn "inner" []). apply Balanced_nil.
  - apply (Balanced_warn "late" []). apply Balanced_nil.
Defined.

Lemma skipn_tl :
  forall (A : Type) (n : nat) (s : list A), skipn n (tl s) = skipn (S n) s.
Proof.
  intros A n [|x s]; [|reflexivity]. simpl. apply skipn_nil.
Qed.

Lemma PopErrors_skipn :
  forall n p, PopErrors n p = set_err_stack (skipn n (err_stack p)) p.
Proof.
  induction n as [|n IH]; intros p.
  - symmetry. apply set_err_stack_same.
  - unfold PopErrors. rewrite Nat.iter_succ_r. fold (PopErrors n (PopError p)).
    rewrite IH, PopError_tl. cbn [err_stack set_err_stack].
    rewrite skipn_tl. reflexivity.
Qed.

Lemma PopWarns_skipn :
  forall n p,
    run_stack_ops (repeat DoPopWarn n) p
    = set_warn_stack (skipn n (warn_stack p)) p.
Proof.
  induction n as [|n IH]; intros p.
  - symmetry. apply set_warn_stack_same.
  - change (run_stack_ops (repeat DoPopWarn (S n)) p)
      with (run_stack_ops (repeat DoPopWarn n) (PopWarn p)).
    rewrite IH, PopWarn_tl. cbn [warn_stack set_warn_stack].
    rewrite skipn_tl. reflexivity.
Qed.

Lemma PopPaths_skipn :
  forall n p,
    run_stack_ops (repeat DoPopPath n) p
    = set_path_stack (skipn n (_path_stack p)) p.
Proof.
  induction n as [|n IH]; intros p.
  - symmetry. apply set_path_stack_same.
  - change (run_stack_ops (repeat DoPopPath (S n)) p)
      with (run_stack_ops (repeat DoPopPath n) (PopPath p)).
    rewrite IH, PopPath_tl. cbn [_path_stack set_path_stack].
    rewrite skipn_tl. reflexivity.
Qed.

(** X4: popping never underflows.  [n] pops take the [n] most recent
    entries off a stack that holds at least [n], empty a shorter stack, and
    change nothing else of the parser - the stack read back afterwards is
    the old one without its [n] top entries, and the two other stacks read
    back as they were; this holds for [PopError], [PopWarn] and [PopPath]
    alike. *)
Theorem pops_saturate :
  forall (n : nat) (p : AsciiParser),
    PopErrors n p = set_err_stack (skipn n (err_stack p)) p /\
    run_stack_ops (repeat DoPopWarn n) p
    = set_warn_stack (skipn n (warn_stack p)) p /\
    run_stack_ops (repeat DoPopPath n) p
    = set_path_stack (skipn n (_path_stack p)) p /\
    (List.length (err_stack p) <= n -> err_stack (PopErrors n p) = [])%nat /\
    (err_stack (PopErrors n p) = skipn n (err_stack p) /\
     warn_stack (PopErrors n p) = warn_stack p /\
     _path_stack (PopErrors n p) = _path_stack p) /\
    (warn_stack (run_stack_ops (repeat DoPopWarn n) p)
     = skipn n (warn_stack p) /\
     err_stack (run_stack_ops (repeat DoPopWarn n) p) = err_stack p /\
     _path_stack (run_stack_ops (repeat DoPopWarn n) p) = _path_stack p) /\
    (_path_stack (run_stack_ops (repeat DoPopPath n) p)
     = skipn n (_path_stack p) /\
     err_stack (run_stack_ops (repeat DoPopPath n) p) = err_stack p /\
     warn_stack (run_stack_ops (repeat DoPopPath n) p) = warn_stack p) /\
    (List.length (warn_stack p) <= n ->
     warn_stack (run_stack_ops (repeat DoPopWarn n) p) = [])%nat /\
    (List.length (_path_stack p) <= n ->
     _path_stack (run_stack_ops (repeat DoPopPath n) p) = [])%nat.
Proof.
  intros n p. split; [apply PopErrors_skipn|].
  split; [apply PopWarns_skipn|]. split; [apply PopPaths_skipn|].
  rewrite PopErrors_skipn, PopWarns_skipn, PopPaths_skipn.
  cbn [err_stack warn_stack _path_stack
       set_err_stack set_warn_stack set_path_stack].
  split; [intros Le; apply skipn_all2; exact Le|].
  split; [repeat split|]. split; [repeat split|]. split; [repeat split|].
  split; intros Le; apply skipn_all2; exact Le.
Qed.

Lemma err_stack_PushErrors :
  forall msgs p,
    err_stack (PushErrors msgs p)
    = rev (List.map (fun m => mkErrorDiagnositc m (_curr_cursor p)) msgs)
      ++ err_stack p.
Proof.
  induction msgs as [|m msgs IH]; intros p; [reflexivity|].
  change (PushErrors (m :: msgs) p) with (PushErrors msgs (PushError m p)).
  rewrite IH.
  change (_curr_cursor (PushError m p)) with (_curr_cursor p).
  pose proof (run_stack_op_err_stack (DoPushError m) p) as E.
  cbn [run_stack_op] in E. rewrite E.
  cbn [List.map rev]. rewrite <- app_assoc. reflexivity.
Qed.

Lemma warn_stack_PushWarns :
  forall msgs p,
    warn_stack (run_stack_ops (List.map DoPushWarn msgs) p)
    = rev (List.map (fun m => mkErrorDiagnositc m (_curr_cursor p)) msgs)
      ++ warn_stack p.
Proof.
  induction msgs as [|m msgs IH]; intros p; [reflexivity|].
  change (run_stack_ops (List.map DoPushWarn (m :: msgs)) p)
    with (run_stack_ops (List.map DoPushWarn msgs) (PushWarn m p)).
  rewrite IH.
  change (_curr_cursor (PushWarn m p)) with (_curr_cursor p).
  pose proof (run_stack_op_warn_stack (DoPushWarn m) p) as E.
  cbn [run_stack_op] in E. rewrite E.
  cbn [List.map rev]. rewrite <- app_assoc. reflexivity.
Qed.

Lemma path_stack_PushPaths :
  forall names p,
    _path_stack (run_stack_ops (List.map DoPushPath names) p)
    = rev names ++ _path_stack p.
Proof.
  induction names as [|s names IH]; intros p; [reflexivity|].
  change (run_stack_ops (List.map DoPushPath (s :: names)) p)
    with (run_stack_ops (List.map DoPushPath names) (PushPath s p)).
  rewrite IH. cbn [rev]. rewrite <- app_assoc. reflexivity.
Qed.

(** X5: pushes stack up in call order, the last one on top.  After the
    messages [msgs] have been pushed with no lexing in between, the error
    stack holds them in reverse order above the older diagnostics, each
    tagged with the one cursor the parser had throughout; the same holds
    for warnings, and the path stack holds the pushed names in reverse
    order above the older ones. *)
Theorem pushes_stack_in_order :
  forall (msgs : list string) (p : AsciiParser),
    err_stack (PushErrors msgs p)
    = rev (List.map (fun m => mkErrorDiagnositc m (_curr_cursor p)) msgs)
      ++ err_stack p /\
    warn_stack (run_stack_ops (List.map DoPushWarn msgs) p)
    = rev (List.map (fun m => mkErrorDiagnositc m (_curr_cursor p)) msgs)
      ++ warn_stack p /\
    _path_stack (run_stack_ops (List.map DoPushPath msgs) p)
    = rev msgs ++ _path_stack p.
Proof.
  intros msgs p. split; [apply err_stack_PushErrors|].
  split; [apply warn_stack_PushWarns | apply path_stack_PushPaths].
Qed.

(** X6: pops are not tied to the pushes of the caller.  Popping [k] times
    more often than was pushed removes the [k] most recent diagnostics
    that were on the error stack before the first push (all of them when
    there were fewer). *)
Theorem PopErrors_beyond_pushes :
  forall (msgs : list string) (k : nat) (p : AsciiParser),
    PopErrors (List.length msgs + k) (PushErrors msgs p) = PopErrors k p /\
    err_stack (PopErrors (List.length msgs + k) (PushErrors msgs p))
    = skipn k (err_stack p).
Proof.
  intros msgs k p.
  assert (E : PopErrors (List.length msgs + k) (PushErrors msgs p)
              = PopErrors k p).
  { rewrite Nat.add_comm. unfold PopErrors. rewrite Nat.iter_add.
    fold (PopErrors (List.length msgs) (PushErrors msgs p)).
    rewrite PopErrors_PushErrors. reflexivity. }
  split; [exact E|].
  rewrite E, PopErrors_skipn. reflexivity.
Qed.

(** X7: [PathStackDepth] after [k] calls of [PopPath] is true exactly when
    the path stack held more than [k] entries; after a [PushPath] it is
    always true. *)
Theorem PathStackDepth_after_pops :
  forall (k : nat) (p : AsciiParser),
    (PathStackDepth (run_stack_ops (repeat DoPopPath k) p) = true
     <-> (k < List.length (_path_stack p))%nat) /\
    (forall s, PathStackDepth (PushPath s p) = true).
Proof.
  intros k p. split; [|reflexivity].
  rewrite PathStackDepth_nonempty, PopPaths_skipn.
  cbn [_path_stack set_path_stack].
  split.
  - intros Ne.
    destruct (Nat.lt_ge_cases k (List.length (_path_stack p))) as [Lt|Ge];
      [exact Lt|].
    exfalso. apply Ne. apply skipn_all2. exact Ge.
  - intros Lt E.
    pose proof (length_skipn k (_path_stack p)) as L.
    rewrite E in L. simpl in L. lia.
Qed.

(** ** The callback registries *)

Lemma StdMap_find_assign :
  forall (V : Type) (k k' : string) (v : V) (m : list (string * V)),
    StdMap.find k' (StdMap.assign k v m)
    = if String.eqb k k' then Some v else StdMap.find k' m.
Proof.
  intros V k k' v m. induction m as [|[k0 v0] m IH].
  - simpl. reflexivity.
  - cbn [StdMap.assign]. destruct (String.eqb k0 k) eqn:E0.
    + apply String.eqb_eq in E0. subst k0. cbn [StdMap.find].
      destruct (String.eqb k k'); reflexivity.
    + cbn [StdMap.find]. rewrite IH.
      destruct (String.eqb k0 k') eqn:E1; [|reflexivity].
      apply String.eqb_eq in E1. subst k0. rewrite String.eqb_sym, E0.
      reflexivity.
Qed.

Lemma StdMap_find_app :
  forall (V : Type) (k : string) (m m' : list (string * V)),
    StdMap.find k (m ++ m')
    = match StdMap.find k m with
      | Some v => Some v
      | None => StdMap.find k m'
      end.
Proof.
  intros V k m m'. induction m as [|[k0 v0] m IH]; [reflexivity|].
  cbn [app StdMap.find]. destruct (String.eqb k0 k); [reflexivity | exact IH].
Qed.

Lemma StdMap_find_None :
  forall (V : Type) (k : string) (m : list (string * V)),
    StdMap.find k m = None <-> ~ In k (List.map fst m).
Proof.
  intros V k m. induction m as [|[k0 v0] m IH].
  - simpl. split; [intros _ [] | reflexivity].
  - cbn [StdMap.find List.map fst In]. destruct (String.eqb k0 k) eqn:E.
    + apply String.eqb_eq in E. split; [discriminate|].
      intros N. exfalso. apply N. left. exact E.
    + apply String.eqb_neq in E. rewrite IH. split.
      * intros N [H|H]; [exact (E H) | exact (N H)].
      * intros N H. apply N. right. exact H.
Qed.

Lemma StdMap_assign_keys :
  forall (V : Type) (k : string) (v : V) (m : list (string * V)),
    List.map fst (StdMap.assign k v m)
    = match StdMap.find k m with
      | Some _ => List.map fst m
      | None => List.map fst m ++ [k]
      end.
Proof.
  intros V k v m. induction m as [|[k0 v0] m IH]; [reflexivity|].
  cbn [StdMap.assign StdMap.find]. destruct (String.eqb k0 k); [reflexivity|].
  cbn [List.map fst]. rewrite IH.
  destruct (StdMap.find k m); reflexivity.
Qed.

Lemma StdMap_assign_unique :
  forall (V : Type) (k : string) (v : V) (m : list (string * V)),
    StdMap.unique_keys m -> StdMap.unique_keys (StdMap.assign k v m).
Proof.
  intros V k v m U. unfold StdMap.unique_keys in *.
  rewrite StdMap_assign_keys.
  destruct (StdMap.find k m) eqn:F; [exact U|].
  apply StdMap_find_None in F.
  apply NoDup_app; [exact U | constructor; [intros [] | constructor] |].
  intros a Ha [Hk|[]]. subst a. exact (F Ha).
Qed.

Lemma StdMap_assign_size :
  forall (V : Type) (k : string) (v : V) (m : list (string * V)),
    StdMap.size (StdMap.assign k v m)
    = match StdMap.find k m with
      | Some _ => StdMap.size m
      | None => (StdMap.size m + 1)%N
      end.
Proof.
  intros V k v m. unfold StdMap.size.
  rewrite <- (length_map fst (StdMap.assign k v m)), StdMap_assign_keys.
  destruct (StdMap.find k m).
  - rewrite length_map. reflexivity.
  - rewrite length_app, length_map. simpl. lia.
Qed.

Section CallbackFacts.
Variables Path Specifier Property PrimMetaMap StageMetas : Type.

Local Abbreviation Callbacks :=
  (Callbacks Path Specifier Property PrimMetaMap StageMetas).

(** X8: after [RegisterPrimConstructFunction(prim_type, fun)] the
    construction registry maps [prim_type] to [fun] and every other type
    to what it had before; the post-construction registry and the two
    single callbacks are unchanged.  [RegisterPostPrimConstructFunction]
    does the same to the post-construction registry. *)
Theorem RegisterPrimConstructFunction_lookup :
  forall (cb : Callbacks) (prim_type ty : string),
    (forall f : std_function (PrimConstructFunction Path Specifier Property
                                PrimMetaMap),
        StdMap.find ty
          (_prim_construct_fun_map
             (RegisterPrimConstructFunction prim_type f cb))
        = (if String.eqb prim_type ty then Some f
           else StdMap.find ty (_prim_construct_fun_map cb)) /\
        _post_prim_construct_fun_map
          (RegisterPrimConstructFunction prim_type f cb)
        = _post_prim_construct_fun_map cb /\
        _prim_idx_assign_fun (RegisterPrimConstructFunction prim_type f cb)
        = _prim_idx_assign_fun cb /\
        _stage_meta_process_fun (RegisterPrimConstructFunction prim_type f cb)
        = _stage_meta_process_fun cb) /\
    (forall g : std_function (PostPrimConstructFunction Path),
        StdMap.find ty
          (_post_prim_construct_fun_map
             (RegisterPostPrimConstructFunction prim_type g cb))
        = (if String.eqb prim_type ty then Some g
           else StdMap.find ty (_post_prim_construct_fun_map cb)) /\
        _prim_construct_fun_map
          (RegisterPostPrimConstructFunction prim_type g cb)
        = _prim_construct_fun_map cb /\
        _prim_idx_assign_fun
          (RegisterPostPrimConstructFunction prim_type g cb)
        = _prim_idx_assign_fun cb /\
        _stage_meta_process_fun
          (RegisterPostPrimConstructFunction prim_type g cb)
        = _stage_meta_process_fun cb).
Proof.
  intros cb prim_type ty. split.
  - intros f. split; [|repeat split]. simpl. apply StdMap_find_assign.
  - intros g. split; [|repeat split]. simpl. apply StdMap_find_assign.
Qed.

(** X9: registration keeps the registries well-formed maps: when no type
    occurs twice before [RegisterPrimConstructFunction], none does after
    it, and the registry grows by one entry exactly when the type was not
    registered yet (a second registration of a type replaces the first). *)
Theorem RegisterPrimConstructFunction_keeps_map :
  forall (cb : Callbacks) (prim_type : string)
         (f : std_function (PrimConstructFunction Path Specifier Property
                              PrimMetaMap)),
    StdMap.unique_keys (_prim_construct_fun_map cb) ->
    StdMap.unique_keys
      (_prim_construct_fun_map (RegisterPrimConstructFunction prim_type f cb))
    /\
    StdMap.size
      (_prim_construct_fun_map (RegisterPrimConstructFunction prim_type f cb))
    = match StdMap.find prim_type (_prim_construct_fun_map cb) with
      | Some _ => StdMap.size (_prim_construct_fun_map cb)
      | None => (StdMap.size (_prim_construct_fun_map cb) + 1)%N
      end.
Proof.
  intros cb prim_type f U. simpl. split.
  - apply StdMap_assign_unique. exact U.
  - apply StdMap_assign_size.
Qed.

Lemma RegisterPrimConstructFunctions_find :
  forall regs (cb : Callbacks) ty,
    StdMap.find ty
      (_prim_construct_fun_map (RegisterPrimConstructFunctions regs cb))
    = match StdMap.find ty (rev regs) with
      | Some f => Some f
      | None => StdMap.find ty (_prim_construct_fun_map cb)
      end.
Proof.
  induction regs as [|[k f] regs IH]; intros cb ty; [reflexivity|].
  change (RegisterPrimConstructFunctions ((k, f) :: regs) cb)
    with (RegisterPrimConstructFunctions regs
            (RegisterPrimConstructFunction k f cb)).
  rewrite IH. cbn [rev]. rewrite StdMap_find_app.
  destruct (StdMap.find ty (rev regs)); [reflexivity|].
  simpl. rewrite StdMap_find_assign.
  destruct (String.eqb k ty); reflexivity.
Qed.

Lemma RegisterPrimConstructFunctions_others :
  forall regs (cb : Callbacks),
    _post_prim_construct_fun_map (RegisterPrimConstructFunctions regs cb)
    = _post_prim_construct_fun_map cb /\
    _prim_idx_assign_fun (RegisterPrimConstructFunctions regs cb)
    = _prim_idx_assign_fun cb /\
    _stage_meta_process_fun (RegisterPrimConstructFunctions regs cb)
    = _stage_meta_process_fun cb.
Proof.
  induction regs as [|[k f] regs IH]; intros cb; [repeat split|].
  change (RegisterPrimConstructFunctions ((k, f) :: regs) cb)
    with (RegisterPrimConstructFunctions regs
            (RegisterPrimConstructFunction k f cb)).
  destruct (IH (RegisterPrimConstructFunction k f cb)) as (A & B & C).
  rewrite A, B, C. repeat split.
Qed.

(** X10: the last registration wins.  After any sequence of calls of
    [RegisterPrimConstructFunction], a prim type is mapped to the function
    of the last call made for it, or, when no call named it, to what the
    registry held before; the other callback members are untouched. *)
Theorem RegisterPrimConstructFunctions_last_wins :
  forall (regs : list (string * std_function
                         (PrimConstructFunction Path Specifier Property
                            PrimMetaMap)))
         (cb : Callbacks) (ty : string),
    StdMap.find ty
      (_prim_construct_fun_map (RegisterPrimConstructFunctions regs cb))
    = match StdMap.find ty (rev regs) with
      | Some f => Some f
      | None => StdMap.find ty (_prim_construct_fun_map cb)
      end /\
    _post_prim_construct_fun_map (RegisterPrimConstructFunctions regs cb)
    = _post_prim_construct_fun_map cb /\
    _prim_idx_assign_fun (RegisterPrimConstructFunctions regs cb)
    = _prim_idx_assign_fun cb /\
    _stage_meta_process_fun (RegisterPrimConstructFunctions regs cb)
    = _stage_meta_process_fun cb.
Proof.
  intros regs cb ty. split.
  - apply RegisterPrimConstructFunctions_find.
  - apply RegisterPrimConstructFunctions_others.
Qed.
End CallbackFacts.

Lemma RegisterPrimConstructFunction_keeps_map_witness :
  StdMap.unique_keys
    (_prim_construct_fun_map
       (RegisterPrimConstructFunction "Mesh" None
          (mkCallbacks (Path := unit) (Specifier := unit) (Property := unit)
             (PrimMetaMap := unit) (StageMetas := unit)
             None None [("Xform"%string, None)] [])))
  /\
  StdMap.size
    (_prim_construct_fun_map
       (RegisterPrimConstructFunction "Mesh" None
          (mkCallbacks (Path := unit) (Specifier := unit) (Property := unit)
             (PrimMetaMap := unit) (StageMetas := unit)
             None None [("Xform"%string, None)] [])))
  = match
      StdMap.find "Mesh"
        (_prim_construct_fun_map
           (mkCallbacks (Path := unit) (Specifier := unit) (Property := unit)
              (PrimMetaMap := unit) (StageMetas := unit)
              None None [("Xform"%string, None)] []))
    with
    | Some _ =>
        StdMap.size
          (_prim_construct_fun_map
             (mkCallbacks (Path := unit) (Specifier := unit)
                (Property := unit) (PrimMetaMap := unit) (StageMetas := unit)
                None None [("Xform"%string, None)] []))
    | None =>
        (StdMap.size
           (_prim_construct_fun_map
              (mkCallbacks (Path := unit) (Specifier := unit)
                 (Property := unit) (PrimMetaMap := unit)
                 (StageMetas := unit)
                 None None [("Xform"%string, None)] [])) + 1)%N
    end.
Proof.
  apply (RegisterPrimConstructFunction_keeps_map unit unit unit unit unit).
  unfold StdMap.unique_keys. simpl.
  constructor; [intros [] | constructor].
Defined.

Example RegisterPrimConstructFunction_twice :
  List.map fst
    (_prim_construct_fun_map
       (RegisterPrimConstructFunctions
          [("Xform"%string, None); ("Mesh"%string, None);
           ("Xform"%string, None)]
          (mkCallbacks (Path := unit) (Specifier := unit) (Property := unit)
             (PrimMetaMap := unit) (StageMetas := unit) None None [] [])))
  = ["Xform"; "Mesh"]%string.
Proof. reflexivity. Qed.
